(** * get_humidity.py: the weather-skill example script

    A shallow embedding of
    [examples/skills/skills/weather-skill/scripts/get_humidity.py] and of the
    part of CPython 3.11's [argparse] that the script drives: an
    [ArgumentParser] with the implicit [-h/--help] action and the single
    [--location] option (type [str], default ["Mountain View"]).

    Python text is modelled as it is in the interpreter, a sequence of Unicode
    code points; standard output and standard error are text streams to which
    [print] and the parser append, standard output through an encoder that
    can refuse a text. *)

From Stdlib Require Import Ascii String List NArith ZArith Bool Lia.
Import ListNotations.

(** ** Python text *)

Definition char := N.
Definition str := list char.

(** A literal of the source: the code points of an ASCII literal. *)
Definition py (s : string) : str := map N_of_ascii (list_ascii_of_string s).

Fixpoint str_eqb (a b : str) : bool :=
  match a, b with
  | [], [] => true
  | x :: a', y :: b' => N.eqb x y && str_eqb a' b'
  | _, _ => false
  end.

(** [s.startswith(p)] *)
Fixpoint startswith (s p : str) : bool :=
  match p, s with
  | [], _ => true
  | y :: p', x :: s' => N.eqb x y && startswith s' p'
  | _ :: _, [] => false
  end.

(** [c in s] *)
Definition contains (c : char) (s : str) : bool := existsb (N.eqb c) s.

(** [s.split(c, 1)] for an [s] that contains [c]: the text before the first
    [c] and the text after it. *)
Fixpoint split1 (c : char) (s : str) : str * str :=
  match s with
  | [] => ([], [])
  | x :: s' =>
      if N.eqb x c then ([], s')
      else let (before, rest) := split1 c s' in (x :: before, rest)
  end.

(** [sep.join(parts)] *)
Fixpoint join (sep : str) (parts : list str) : str :=
  match parts with
  | [] => []
  | [p] => p
  | p :: ps => p ++ sep ++ join sep ps
  end.

Definition newline : char := 10%N.
Definition hyphen : char := 45%N.
Definition full_stop : char := 46%N.
Definition space : char := 32%N.
Definition equals_sign : char := 61%N.

(** The lines of a text stream: maximal runs of characters ended by a line
    feed (a last run without its line feed is a line too). *)
Fixpoint lines (s : str) : list str :=
  match s with
  | [] => []
  | c :: r =>
      if N.eqb c newline then [] :: lines r
      else match lines r with
           | [] => [[c]]
           | l :: ls => (c :: l) :: ls
           end
  end.

(** ** The regular expressions of argparse

    [\d] on text is a character of Unicode category Nd.  The table is the one
    of Unicode 14.0.0 (the [unicodedata] of CPython 3.11): every entry starts
    a run of ten digits, ZERO to NINE. *)
Definition decimal_digit_zeros : list N :=
  [48; 1632; 1776; 1984; 2406; 2534; 2662; 2790; 2918; 3046; 3174; 3302;
   3430; 3558; 3664; 3792; 3872; 4160; 4240; 6112; 6160; 6470; 6608; 6784;
   6800; 6992; 7088; 7232; 7248; 42528; 43216; 43264; 43472; 43504; 43600;
   44016; 65296; 66720; 68912; 69734; 69872; 69942; 70096; 70384; 70736;
   70864; 71248; 71360; 71472; 71904; 72016; 72784; 73040; 73120; 92768;
   92864; 93008; 120782; 120792; 120802; 120812; 120822; 123200; 123632;
   125264; 130032]%N.

Definition is_decimal_digit (c : char) : bool :=
  existsb (fun z => N.leb z c && N.ltb c (z + 10)) decimal_digit_zeros.

(** [\d+] against the whole of [s] *)
Definition all_digits1 (s : str) : bool :=
  match s with
  | [] => false
  | _ => forallb is_decimal_digit s
  end.

(** [\d*\.\d+] against the whole of [s]: no digit is a full stop, so the
    first full stop is the one of the pattern. *)
Definition digits_point_digits (s : str) : bool :=
  contains full_stop s &&
  (let (whole, frac) := split1 full_stop s in
   forallb is_decimal_digit whole && all_digits1 frac).

(** [$] matches at the end of the text and also just before a line feed that
    ends it. *)
Definition before_dollar (s : str) : str :=
  match rev s with
  | c :: r => if N.eqb c newline then rev r else s
  | [] => s
  end.

(** [parser._negative_number_matcher.match(s)], the pattern being
    [^-\d+$|^-\d*\.\d+$]. *)
Definition _negative_number_matcher (s : str) : bool :=
  match s with
  | c :: r =>
      N.eqb c hyphen &&
      (let body := before_dollar r in
       all_digits1 body || digits_point_digits body)
  | [] => false
  end.

(** ** Values, the namespace and the process *)

(** What [args.location] can hold: text, or the list that [_get_values]
    builds when it is left with another number of strings than one. *)
Inductive pyval :=
| PyStr (s : str)
| PyList (items : list str).

Record Namespace := { location : pyval }.

Definition setattr_location (ns : Namespace) (v : pyval) : Namespace :=
  {| location := v |}.

(** The two text streams of the process. *)
Record world := { stdout : str; stderr : str }.

Definition write_stdout (s : str) (w : world) : world :=
  {| stdout := stdout w ++ s; stderr := stderr w |}.

Definition write_stderr (s : str) (w : world) : world :=
  {| stdout := stdout w; stderr := stderr w ++ s |}.

(** ** The encoder of standard output

    Standard output is a UTF-8 text stream.  UTF-8 has no encoding for a
    surrogate code point (U+D800 to U+DFFF); what becomes of one is up to the
    error handler of the stream: [strict], the interpreter's default, refuses
    it, and [surrogateescape], the default under the C locale, writes back
    the byte that U+DC80 to U+DCFF stand for and refuses the others.
    (Bytes of the command line that are not UTF-8 reach the script as
    U+DC80 to U+DCFF.)  Standard error escapes what it cannot encode and
    never refuses a text. *)
Inductive error_handler := Strict | SurrogateEscape.

Definition is_surrogate (c : char) : bool :=
  N.leb 55296 c && N.leb c 57343.

Definition is_escaped_byte (c : char) : bool :=
  N.leb 56448 c && N.leb c 56575.

Definition encodes (errors : error_handler) (c : char) : bool :=
  negb (is_surrogate c)
  || match errors with
     | Strict => false
     | SurrogateEscape => is_escaped_byte c
     end.

(** The exception of a write that the encoder refuses, with the text. *)
Inductive exception := UnicodeEncodeError (object : str).

(** What the interpreter supplies and this development leaves abstract: the
    program name, the two texts of argparse's [HelpFormatter] (made of the
    program name and ASCII text, which the streams encode), [repr] on text,
    the error handler of standard output and the traceback written for an
    exception that nothing catches. *)
Class Runtime := {
  prog : str;
  format_usage : str;
  format_help : str;
  repr : str -> str;
  stdout_errors : error_handler;
  traceback : exception -> str
}.

(** [sys.stdout] can encode the text. *)
Definition encodable {rt : Runtime} (s : str) : bool :=
  forallb (encodes stdout_errors) s.

(** A statement completes with a value, leaves through [SystemExit] or
    raises an exception. *)
Inductive completion (A : Type) :=
| Val (a : A)
| SystemExit (status : Z)
| Raised (e : exception).
Arguments Val {A} a.
Arguments SystemExit {A} status.
Arguments Raised {A} e.

Definition M (A : Type) : Type := world -> completion A * world.

Definition mret {A} (a : A) : M A := fun w => (Val a, w).

Definition mbind {A B} (m : M A) (k : A -> M B) : M B :=
  fun w =>
    match m w with
    | (Val a, w') => k a w'
    | (SystemExit status, w') => (SystemExit status, w')
    | (Raised e, w') => (Raised e, w')
    end.

Notation "x <- m ;; k" := (mbind m (fun x => k))
  (at level 61, m at next level, right associativity).

(** [print(s)]: [sys.stdout.write(s)] and then the line end.  The write
    encodes the whole text first, so a text that the stream cannot encode
    raises [UnicodeEncodeError] and nothing of it is written. *)
Definition print {rt : Runtime} (s : str) : M unit :=
  fun w =>
    if encodable s then (Val tt, write_stdout (s ++ [newline]) w)
    else (Raised (UnicodeEncodeError s), w).

(** A runtime for the examples: the script run as [get_humidity.py] on a
    terminal wide enough for the usage line, standard output with the
    [strict] handler; [repr] as it is on text without quotes, backslashes or
    unprintable characters; of the traceback, the first and the last line
    without the particulars. *)
Definition example_runtime : Runtime :=
  {| prog := py "get_humidity.py";
     format_usage :=
       py "usage: get_humidity.py [-h] [--location LOCATION]" ++ [newline];
     format_help :=
       py "usage: get_humidity.py [-h] [--location LOCATION]"
         ++ [newline; newline]
         ++ py "options:" ++ [newline]
         ++ py "  -h, --help           show this help message and exit"
         ++ [newline]
         ++ py "  --location LOCATION" ++ [newline];
     repr := fun s => py "'" ++ s ++ py "'";
     stdout_errors := Strict;
     traceback := fun _ =>
       py "Traceback (most recent call last):" ++ [newline]
         ++ py "UnicodeEncodeError: surrogates not allowed" ++ [newline] |}.

(** The same script under the C locale. *)
Definition c_locale_runtime : Runtime :=
  {| prog := prog (Runtime := example_runtime);
     format_usage := format_usage (Runtime := example_runtime);
     format_help := format_help (Runtime := example_runtime);
     repr := repr (Runtime := example_runtime);
     stdout_errors := SurrogateEscape;
     traceback := traceback (Runtime := example_runtime) |}.

(** The process before it has written anything. *)
Definition fresh : world := {| stdout := []; stderr := [] |}.

(** ** The parser the script builds

    [argparse.ArgumentParser()] followed by
    [add_argument("--location", type=str, default="Mountain View")]:
    [prefix_chars] is ["-"], [allow_abbrev] and [exit_on_error] are on, and
    there are two actions, both optionals, and no positional. *)

Inductive action := HelpAction | StoreLocation.

(** The argument counts that occur: [None] (one string) for [--location] and
    [0] for help. *)
Inductive nargs_spec := NargsNone | NargsZero.

Definition nargs (a : action) : nargs_spec :=
  match a with
  | HelpAction => NargsZero
  | StoreLocation => NargsNone
  end.

Definition option_strings (a : action) : list str :=
  match a with
  | HelpAction => [py "-h"; py "--help"]
  | StoreLocation => [py "--location"]
  end.

Definition default_location : str := py "Mountain View".

Definition prefix_chars : str := py "-".

(** The dictionary [parser._option_string_actions], in insertion order. *)
Definition _option_string_actions : list (str * action) :=
  [(py "-h", HelpAction); (py "--help", HelpAction);
   (py "--location", StoreLocation)].

Fixpoint lookup (k : str) (d : list (str * action)) : option action :=
  match d with
  | [] => None
  | (k', a) :: d' => if str_eqb k k' then Some a else lookup k d'
  end.

Definition _has_negative_number_optionals : bool := false.

(** How the parser leaves the process: [parser.error(message)], or the help
    action's [parser.print_help(); parser.exit()]. *)
Inductive parser_exit :=
| ExitError (message : str)
| ExitHelp.

Inductive exn :=
| ArgumentError (a : action) (message : str)
| Exiting (x : parser_exit).

Inductive parse (A : Type) :=
| Ret (a : A)
| Raise (e : exn).
Arguments Ret {A} a.
Arguments Raise {A} e.

Definition pbind {A B} (p : parse A) (k : A -> parse B) : parse B :=
  match p with
  | Ret a => k a
  | Raise e => Raise e
  end.

Notation "x <~ p ;; k" := (pbind p (fun x => k))
  (at level 61, p at next level, right associativity).
Notation "' pat <~ p ;; k" := (pbind p (fun x => match x with pat => k end))
  (at level 61, pat pattern, p at next level, right associativity).

(** An entry of [option_string_indices]: the action (or [None] for a string
    that looks like an option the parser does not have), the option string
    and the explicit argument. *)
Definition option_tuple : Type := option action * str * option str.

(** [_get_option_tuples], called on a string of at least two characters
    [c0 :: c1 :: rest]. *)
Definition _get_option_tuples (c0 c1 : char) (rest : str)
  : parse (list option_tuple) :=
  let option_string := c0 :: c1 :: rest in
  if contains c0 prefix_chars && contains c1 prefix_chars then
    let '(option_prefix, explicit_arg) :=
      if contains equals_sign option_string
      then let (p, e) := split1 equals_sign option_string in (p, Some e)
      else (option_string, None) in
    Ret (flat_map
           (fun '(os, a) =>
              if startswith os option_prefix
              then [(Some a, os, explicit_arg)] else [])
           _option_string_actions)
  else if contains c0 prefix_chars && negb (contains c1 prefix_chars) then
    let option_prefix := option_string in
    let short_option_prefix := [c0; c1] in
    let short_explicit_arg := rest in
    Ret (flat_map
           (fun '(os, a) =>
              if str_eqb os short_option_prefix
              then [(Some a, os, Some short_explicit_arg)]
              else if startswith os option_prefix
                   then [(Some a, os, None)] else [])
           _option_string_actions)
  else
    Raise (Exiting (ExitError
                      (py "unexpected option string: " ++ option_string))).

Definition ambiguous_option (arg_string : str) (ts : list option_tuple)
  : str :=
  py "ambiguous option: " ++ arg_string ++ py " could match "
    ++ join (py ", ") (map (fun t : option_tuple => snd (fst t)) ts).

(** [_parse_optional]: [Ret None] for a string meant as a positional. *)
Definition _parse_optional (arg_string : str) : parse (option option_tuple) :=
  match arg_string with
  | [] => Ret None
  | c0 :: tail =>
      if negb (contains c0 prefix_chars) then Ret None
      else
        match lookup arg_string _option_string_actions with
        | Some a => Ret (Some (Some a, arg_string, None))
        | None =>
            match tail with
            | [] => Ret None
            | c1 :: rest =>
                let before_equals :=
                  if contains equals_sign arg_string then
                    let (os, explicit_arg) := split1 equals_sign arg_string in
                    match lookup os _option_string_actions with
                    | Some a => Some (Some a, os, Some explicit_arg)
                    | None => None
                    end
                  else None in
                match before_equals with
                | Some t => Ret (Some t)
                | None =>
                    option_tuples <~ _get_option_tuples c0 c1 rest ;;
                    match option_tuples with
                    | _ :: _ :: _ =>
                        Raise (Exiting (ExitError
                          (ambiguous_option arg_string option_tuples)))
                    | [t] => Ret (Some t)
                    | [] =>
                        if _negative_number_matcher arg_string
                           && negb _has_negative_number_optionals
                        then Ret None
                        else if contains space arg_string then Ret None
                        else Ret (Some (None, arg_string, None))
                    end
                end
            end
        end
  end.

(** A letter of [arg_strings_pattern], the ['O'] with its entry of
    [option_string_indices]. *)
Inductive kind :=
| KO (t : option_tuple)
| KA
| KDash.

(** The first loop of [_parse_known_args]: every argument string with its
    letter; after the first [--] every string is an ['A']. *)
Fixpoint arg_string_pattern_parts (arg_strings : list str)
  : parse (list (str * kind)) :=
  match arg_strings with
  | [] => Ret []
  | arg_string :: rest =>
      if str_eqb arg_string (py "--")
      then Ret ((arg_string, KDash) :: map (fun s => (s, KA)) rest)
      else
        option_tuple <~ _parse_optional arg_string ;;
        parts <~ arg_string_pattern_parts rest ;;
        Ret ((arg_string,
              match option_tuple with Some t => KO t | None => KA end)
               :: parts)
  end.

Definition is_A (k : kind) : bool :=
  match k with KA => true | _ => false end.

(** [_match_argument]: the pattern of an optional has no [-], so it is [(A)]
    for [nargs=None] and [()] for [nargs=0]. *)
Definition _match_argument (a : action) (arg_strings_pattern : list kind)
  : parse nat :=
  match nargs a with
  | NargsNone =>
      match arg_strings_pattern with
      | k :: _ =>
          if is_A k then Ret 1
          else Raise (ArgumentError a (py "expected one argument"))
      | [] => Raise (ArgumentError a (py "expected one argument"))
      end
  | NargsZero => Ret 0
  end.

(** [type=str] for [--location], no type for help: the string itself. *)
Definition _get_value (a : action) (arg_string : str) : str := arg_string.

(** [list.remove(x)] inside [try ... except ValueError: pass] *)
Fixpoint remove_first (x : str) (l : list str) : list str :=
  match l with
  | [] => []
  | y :: l' => if str_eqb y x then l' else y :: remove_first x l'
  end.

Definition _get_values (a : action) (arg_strings : list str) : pyval :=
  let arg_strings := remove_first (py "--") arg_strings in
  match arg_strings, nargs a with
  | [arg_string], NargsNone => PyStr (_get_value a arg_string)
  | _, _ => PyList (map (_get_value a) arg_strings)
  end.

(** [take_action]: [_StoreAction] sets the attribute, [_HelpAction] prints
    the help and exits. *)
Definition take_action (a : action) (argument_strings : list str)
  (namespace : Namespace) : parse Namespace :=
  let argument_values := _get_values a argument_strings in
  match a with
  | StoreLocation => Ret (setattr_location namespace argument_values)
  | HelpAction => Raise (Exiting ExitHelp)
  end.

Definition action_tuple : Type := action * list str * str.

Fixpoint take_actions (action_tuples : list action_tuple)
  (namespace : Namespace) : parse Namespace :=
  match action_tuples with
  | [] => Ret namespace
  | (a, args, _) :: more =>
      namespace' <~ take_action a args namespace ;;
      take_actions more namespace'
  end.

Section Script.

Context {rt : Runtime}.

(** [consume_optional], the branch without an explicit argument: the strings
    that follow are matched against the action's pattern. *)
Definition consume_following (a : action) (option_string : str)
  (following : list (str * kind)) : parse (list action_tuple * nat) :=
  arg_count <~ _match_argument a (map snd following) ;;
  Ret ([(a, firstn arg_count (map fst following), option_string)], arg_count).

Definition ignored_explicit_argument (explicit_arg : str) : str :=
  py "ignored explicit argument " ++ repr explicit_arg.

(** [consume_optional], the [while True] loop run with an explicit argument:
    a single-dash option that takes no argument passes the rest of the
    string on to the next single-dash option ([-xyz] is [-x -y -z]).  The
    result is [action_tuples] and the number of following strings used. *)
Fixpoint consume_explicit (a : action) (option_string explicit_arg : str)
  (following : list (str * kind)) {struct explicit_arg}
  : parse (list action_tuple * nat) :=
  arg_count <~ _match_argument a [KA] ;;
  let otherwise :=
    if Nat.eqb arg_count 1
    then Ret ([(a, [explicit_arg], option_string)], 0)
    else Raise (ArgumentError a (ignored_explicit_argument explicit_arg)) in
  match explicit_arg with
  | c :: new_explicit_arg =>
      if Nat.eqb arg_count 0
         && negb (contains (nth 1 option_string 0%N) prefix_chars)
      then
        let option_string' := [hd 0%N option_string; c] in
        match lookup option_string' _option_string_actions with
        | Some a' =>
            '(action_tuples, used) <~
              match new_explicit_arg with
              | [] => consume_following a' option_string' following
              | _ => consume_explicit a' option_string' new_explicit_arg
                       following
              end ;;
            Ret ((a, [], option_string) :: action_tuples, used)
        | None =>
            Raise (ArgumentError a (ignored_explicit_argument explicit_arg))
        end
      else otherwise
  | [] => otherwise
  end.

Definition consume_optional (t : action * str * option str)
  (following : list (str * kind)) : parse (list action_tuple * nat) :=
  let '(a, option_string, explicit_arg) := t in
  match explicit_arg with
  | Some e => consume_explicit a option_string e following
  | None => consume_following a option_string following
  end.

(** The main loop of [_parse_known_args].  The parser has no positional, so
    [consume_positionals] takes nothing and every string that is neither an
    option of the parser nor the argument of one goes to [extras]. *)
Fixpoint consume (namespace : Namespace) (extras : list str)
  (parts : list (str * kind)) {struct parts}
  : parse (Namespace * list str) :=
  match parts with
  | [] => Ret (namespace, extras)
  | (arg_string, KO (Some a, option_string, explicit_arg)) :: following =>
      match consume_optional (a, option_string, explicit_arg) following with
      | Raise e => Raise e
      | Ret (action_tuples, used) =>
          match take_actions action_tuples namespace with
          | Raise e => Raise e
          | Ret namespace' =>
              match used, following with
              | S _, _ :: following' => consume namespace' extras following'
              | _, _ => consume namespace' extras following
              end
          end
      end
  | (arg_string, _) :: following =>
      consume namespace (extras ++ [arg_string]) following
  end.

Definition _parse_known_args (arg_strings : list str) (namespace : Namespace)
  : parse (Namespace * list str) :=
  parts <~ arg_string_pattern_parts arg_strings ;;
  consume namespace [] parts.

(** ['/'.join(action.option_strings)] *)
Definition _get_action_name (a : action) : str :=
  join (py "/") (option_strings a).

(** [str(err)] for an [ArgumentError] *)
Definition argument_error_str (a : action) (message : str) : str :=
  py "argument " ++ _get_action_name a ++ py ": " ++ message.

(** [parse_known_args]: the namespace starts from the defaults, and an
    [ArgumentError] becomes [self.error(str(err))].  (The default of an
    action that was not seen is converted with [str] after the loop, which
    leaves it as it is.) *)
Definition parse_known_args (args : list str)
  : Namespace * list str + parser_exit :=
  let namespace := {| location := PyStr default_location |} in
  match _parse_known_args args namespace with
  | Ret r => inl r
  | Raise (ArgumentError a message) =>
      inr (ExitError (argument_error_str a message))
  | Raise (Exiting x) => inr x
  end.

Definition parse_args (args : list str) : Namespace + parser_exit :=
  match parse_known_args args with
  | inl (namespace, []) => inl namespace
  | inl (_, argv) =>
      inr (ExitError (py "unrecognized arguments: " ++ join (py " ") argv))
  | inr x => inr x
  end.

(** [parser.error(message)]: the usage and the message on standard error,
    exit status 2. *)
Definition error {A} (message : str) : M A :=
  fun w =>
    (SystemExit 2,
     write_stderr (prog ++ py ": error: " ++ message ++ [newline])
       (write_stderr format_usage w)).

(** [parser.print_help(); parser.exit()] *)
Definition help_and_exit {A} : M A :=
  fun w => (SystemExit 0, write_stdout format_help w).

(** [parser.parse_args()] as a statement of the script. *)
Definition parser_parse_args (argv : list str) : M Namespace :=
  match parse_args argv with
  | inl namespace => mret namespace
  | inr (ExitError message) => error message
  | inr ExitHelp => help_and_exit
  end.

(** ** The script *)

(** [f"{location}"]: text as it is, a list through [str]. *)
Definition format_value (v : pyval) : str :=
  match v with
  | PyStr s => s
  | PyList items => py "[" ++ join (py ", ") (map repr items) ++ py "]"
  end.

Definition notice (location : pyval) : str :=
  py "Fetching live humidity for " ++ format_value location ++ py "...".

Definition get_humidity (location : pyval) : M str :=
  _ <- print (notice location) ;;
  mret (py "45% (Simulated)").

(** The [__main__] block, [argv] being [sys.argv[1:]]. *)
Definition main (argv : list str) : M unit :=
  args <- parser_parse_args argv ;;
  humidity <- get_humidity (location args) ;;
  print humidity.

(** The process: exit status 0 when [main] runs to its end; for an exception
    that nothing catches the interpreter writes the traceback to standard
    error and the exit status is 1. *)
Definition run (argv : list str) (w : world) : Z * world :=
  match main argv w with
  | (Val _, w') => (0%Z, w')
  | (SystemExit status, w') => (status, w')
  | (Raised e, w') => (1%Z, write_stderr (traceback e) w')
  end.

(** ** Vocabulary of the properties *)

Definition result_line : str := py "45% (Simulated)".

(** A string that looks like an option the parser does not have. *)
Definition unknown_flag (s : str) : bool :=
  match _parse_optional s with
  | Ret (Some (None, _, _)) => true
  | _ => false
  end.

(** The option a part stands for, if it is one of the parser's. *)
Definition option_of (k : kind) : option (action * str * option str) :=
  match k with
  | KO (Some a, option_string, explicit_arg) =>
      Some (a, option_string, explicit_arg)
  | _ => None
  end.

Definition store (namespace : Namespace) (arg_string : str) : Namespace :=
  setattr_location namespace (_get_values StoreLocation [arg_string]).

Definition starts_with_A (parts : list (str * kind)) : bool :=
  match parts with
  | (_, k) :: _ => is_A k
  | [] => false
  end.

(** What happens at a help option: the help exit, unless its explicit
    argument is refused first. *)
Definition help_outcome {A} (os : str) (e : option str) : parse A :=
  match consume_optional (HelpAction, os, e) [] with
  | Raise x => Raise x
  | Ret _ => Raise (Exiting ExitHelp)
  end.

Definition stores (k : kind) : bool :=
  match option_of k with
  | Some (StoreLocation, _, _) => true
  | _ => false
  end.

Definition helps (k : kind) : bool :=
  match option_of k with
  | Some (HelpAction, _, _) => true
  | _ => false
  end.

(** A part that is the [--location] flag still waiting for its argument. *)
Definition pending (k : kind) : bool :=
  match option_of k with
  | Some (StoreLocation, _, None) => true
  | _ => false
  end.

(** A part is well classified when its ['O'] carries what [_parse_optional]
    says of its string. *)
Definition classified (p : str * kind) : Prop :=
  match snd p with
  | KO t => _parse_optional (fst p) = Ret (Some t)
  | _ => True
  end.

Definition defaults : Namespace := {| location := PyStr default_location |}.

(** The string selects the [--location] option. *)
Definition selects_location (s : str) : bool :=
  match _parse_optional s with
  | Ret (Some (Some StoreLocation, _, _)) => true
  | _ => false
  end.

(** The string selects the help option. *)
Definition selects_help (s : str) : bool :=
  match _parse_optional s with
  | Ret (Some (Some HelpAction, _, _)) => true
  | _ => false
  end.

(** The string is the [--location] flag, in full or abbreviated, without an
    explicit argument: it takes the next string as its value. *)
Definition awaits_argument (s : str) : bool :=
  match _parse_optional s with
  | Ret (Some (Some StoreLocation, _, None)) => true
  | _ => false
  end.

(** The string is an argument, not an option: a positional on its own, a
    value after [--location]. *)
Definition is_argument (s : str) : bool :=
  negb (str_eqb s (py "--")) &&
  match _parse_optional s with
  | Ret None => true
  | _ => false
  end.

(** An unambiguous abbreviation of [--location] (the flag in full included): a
    prefix of it that is a prefix of no other option string. *)
Definition is_location_flag (s : str) : bool :=
  startswith (py "--location") s
  && forallb (fun os => negb (startswith os s)) [py "-h"; py "--help"].

Definition location_flags : list str :=
  [py "--l"; py "--lo"; py "--loc"; py "--loca"; py "--locat"; py "--locati";
   py "--locatio"; py "--location"].

(** One way of supplying the flag with a value: [flag value] as two strings,
    or [flag=value] as one. *)
Inductive occurrence :=
| Separate (flag value : str)
| Joined (flag value : str).

Definition tokens (o : occurrence) : list str :=
  match o with
  | Separate flag value => [flag; value]
  | Joined flag value => [flag ++ equals_sign :: value]
  end.

Definition value_of (o : occurrence) : str :=
  match o with
  | Separate _ value => value
  | Joined _ value => value
  end.

(** The flag is [--location] or an abbreviation of it; a value in a string
    of its own is an argument; a value after [=] is any text but [--]. *)
Definition well_formed (o : occurrence) : bool :=
  match o with
  | Separate flag value => is_location_flag flag && is_argument value
  | Joined flag value =>
      is_location_flag flag && negb (str_eqb value (py "--"))
  end.

Definition parts_of (o : occurrence) : list (str * kind) :=
  match o with
  | Separate flag value =>
      [(flag, KO (Some StoreLocation, py "--location", None)); (value, KA)]
  | Joined flag value =>
      [(flag ++ equals_sign :: value,
        KO (Some StoreLocation, py "--location", Some value))]
  end.

(** Texts for the examples. *)
Definition Tokyo : str := py "Tokyo".

(** The byte 0xFF of a command line, as the script gets it: U+DCFF. *)
Definition byte_ff : str := [56575%N].

(** A surrogate that no byte of a command line stands for: U+D800. *)
Definition lone_surrogate : str := [55296%N].

Definition two_lines : str := py "a" ++ [newline] ++ py "b".

(** ** Vocabulary of the further properties *)

(** An occurrence the parser takes: as [well_formed], but after [=] any
    value at all. *)
Definition accepted (o : occurrence) : bool :=
  match o with
  | Separate flag value => is_location_flag flag && is_argument value
  | Joined flag _ => is_location_flag flag
  end.

(** The namespace after the occurrences, each one storing its value. *)
Definition resolve (namespace : Namespace) (occs : list occurrence)
  : Namespace :=
  fold_left (fun ns o => store ns (value_of o)) occs namespace.

(** The spellings of the help flag: [-h], [--help] and its abbreviations. *)
Definition help_flags : list str :=
  [py "-h"; py "--h"; py "--he"; py "--hel"; py "--help"].

(** A string the first loop gets past: the separator, or a string that
    [_parse_optional] does not refuse as ambiguous. *)
Definition parses (s : str) : bool :=
  str_eqb s (py "--")
  || match _parse_optional s with
     | Raise _ => false
     | Ret _ => true
     end.

(** What the first loop leaves behind: every ['O'] carries what
    [_parse_optional] says of its string, and every ['A'] before the
    separator is an argument. *)
Fixpoint well_classified (parts : list (str * kind)) : Prop :=
  match parts with
  | [] => True
  | (s, KO t) :: rest =>
      _parse_optional s = Ret (Some t) /\ well_classified rest
  | (s, KA) :: rest => is_argument s = true /\ well_classified rest
  | (_, KDash) :: _ => True
  end.

(** A character that can stand in a text the negative-number pattern
    matches: a digit, the full stop, the line feed. *)
Definition numeric_char (c : char) : bool :=
  is_decimal_digit c || N.eqb c full_stop || N.eqb c newline.

(** The spellings of the help flag that can be followed by [=]. *)
Definition long_help_flags : list str :=
  [py "--h"; py "--he"; py "--hel"; py "--help"].

(** A command line in pieces: occurrences of the flag and, between them,
    strings that select no option and are not the separator. *)
Inductive item :=
| Given (o : occurrence)
| Stray (s : str).

Definition item_ok (i : item) : bool :=
  match i with
  | Given o => accepted o
  | Stray s => is_argument s || unknown_flag s
  end.

Definition item_tokens (i : item) : list str :=
  match i with
  | Given o => tokens o
  | Stray s => [s]
  end.

Definition strays (items : list item) : list str :=
  flat_map (fun i => match i with Given _ => [] | Stray s => [s] end) items.

Definition minus_five : str := py "-5".

End Script.

(** * Properties *)

Section Properties.

Context {rt : Runtime}.

(** ** Text *)

Lemma str_eqb_eq (a b : str) : str_eqb a b = true <-> a = b.
Proof.
  revert b; induction a as [|x a IH]; intros [|y b]; simpl;
    try (split; congruence).
  rewrite andb_true_iff, N.eqb_eq, IH. split.
  - intros [-> ->]; reflexivity.
  - intros E; injection E; auto.
Qed.

Lemma lines_one_more (s rest : str) :
  contains newline s = false ->
  lines (s ++ newline :: rest) = s :: lines rest.
Proof.
  unfold contains. induction s as [|c s IH]; cbn [existsb app lines]; intros H.
  - now rewrite N.eqb_refl.
  - apply orb_false_iff in H as [Hc Hs].
    rewrite N.eqb_sym, Hc, (IH Hs). reflexivity.
Qed.

Lemma contains_app (c : char) (a b : str) :
  contains c (a ++ b) = contains c a || contains c b.
Proof. unfold contains. apply existsb_app. Qed.

Lemma write_stdout_twice (a b : str) (w : world) :
  write_stdout b (write_stdout a w) = write_stdout (a ++ b) w.
Proof. unfold write_stdout; simpl. now rewrite app_assoc. Qed.

(** ** The encoder *)

Lemma encodes_plain (errors : error_handler) (c : char) :
  is_surrogate c = false -> encodes errors c = true.
Proof. unfold encodes. now intros ->. Qed.

Lemma encodable_app (a b : str) :
  encodable (a ++ b) = encodable a && encodable b.
Proof. unfold encodable. apply forallb_app. Qed.

Lemma notice_encodable (location : pyval) :
  encodable (notice location) = encodable (format_value location).
Proof.
  unfold notice. rewrite !encodable_app.
  assert (H1 : encodable (py "Fetching live humidity for ") = true)
    by reflexivity.
  assert (H2 : encodable (py "...") = true) by reflexivity.
  now rewrite H1, H2, andb_true_r.
Qed.

(** ** The lookup on its own *)

Lemma get_humidity_eq (location : pyval) (w : world) :
  get_humidity location w =
  if encodable (format_value location)
  then (Val (py "45% (Simulated)"),
        write_stdout (notice location ++ [newline]) w)
  else (Raised (UnicodeEncodeError (notice location)), w).
Proof.
  unfold get_humidity, mbind, print. rewrite notice_encodable.
  now destruct (encodable (format_value location)).
Qed.

(** C1, as amended: for every text [L] that standard output can encode (the
    empty text and any Unicode text without an unencodable surrogate
    included) [get_humidity(L)] returns exactly ["45% (Simulated)"]; whenever
    it returns, it returns that value.  For an [L] that standard output
    cannot encode the [print] raises [UnicodeEncodeError] and nothing is
    returned. *)
Theorem get_humidity_returns_constant (L : str) (w : world) :
  (encodable L = true ->
   fst (get_humidity (PyStr L) w) = Val (py "45% (Simulated)"))
  /\ (forall humidity : str,
         fst (get_humidity (PyStr L) w) = Val humidity ->
         humidity = py "45% (Simulated)")
  /\ (encodable L = false ->
      fst (get_humidity (PyStr L) w)
      = Raised (UnicodeEncodeError
                  (py "Fetching live humidity for " ++ L ++ py "..."))).
Proof.
  rewrite get_humidity_eq. cbn [format_value].
  destruct (encodable L); cbn [fst]; repeat split; try discriminate.
  intros humidity H. now injection H as <-.
Qed.

(** C2, as amended: for every text [L] that standard output can encode,
    [get_humidity(L)] appends to standard output exactly the notice
    ["Fetching live humidity for " + L + "..."] and a line feed, and nothing
    to standard error; what it writes is exactly one line, the notice,
    whenever [L] holds no line feed.  For an [L] that standard output cannot
    encode it writes nothing. *)
Theorem get_humidity_writes_notice (L : str) (w : world) :
  (encodable L = true ->
   snd (get_humidity (PyStr L) w) =
     write_stdout
       (py "Fetching live humidity for " ++ L ++ py "..." ++ [newline]) w
   /\ (contains newline L = false ->
       lines (py "Fetching live humidity for " ++ L ++ py "..." ++ [newline])
       = [py "Fetching live humidity for " ++ L ++ py "..."]))
  /\ (encodable L = false -> snd (get_humidity (PyStr L) w) = w).
Proof.
  rewrite get_humidity_eq. cbn [format_value].
  split; intros Henc; rewrite Henc; [|reflexivity]. split.
  - unfold notice. cbn [snd format_value]. now rewrite <- !app_assoc.
  - intros HL.
    replace (py "Fetching live humidity for " ++ L ++ py "..." ++ [newline])
      with ((py "Fetching live humidity for " ++ L ++ py "...")
              ++ newline :: [])
      by now rewrite <- !app_assoc.
    rewrite lines_one_more; [reflexivity|].
    rewrite !contains_app, HL. reflexivity.
Qed.

(** C4, as amended: [get_humidity] validates nothing and has no error branch
    of its own: it completes with its result for exactly the texts that
    standard output can encode, the empty text included, and for the others
    it fails in its [print], with [UnicodeEncodeError] and nothing
    written. *)
Theorem get_humidity_fails_only_in_print (L : str) (w : world) :
  ((exists (humidity : str) (w' : world),
       get_humidity (PyStr L) w = (Val humidity, w'))
   <-> encodable L = true)
  /\ (encodable L = false ->
      get_humidity (PyStr L) w
      = (Raised (UnicodeEncodeError (notice (PyStr L))), w)).
Proof.
  rewrite get_humidity_eq. cbn [format_value].
  destruct (encodable L); split; try discriminate; try reflexivity.
  - split; [reflexivity|eauto].
  - split; [|discriminate]. intros (humidity & w' & H). discriminate H.
Qed.

(** ** The ways a run ends *)

Lemma run_parsed (argv : list str) (ns : Namespace) (w : world) :
  parse_args argv = inl ns ->
  encodable (format_value (location ns)) = true ->
  run argv w =
  (0%Z, write_stdout
          (notice (location ns) ++ [newline] ++ result_line ++ [newline]) w).
Proof.
  intros H Henc. unfold run, main, mbind, parser_parse_args. rewrite H.
  unfold mret. rewrite get_humidity_eq, Henc. unfold print.
  assert (Hr : encodable (py "45% (Simulated)") = true) by reflexivity.
  rewrite Hr, write_stdout_twice. now rewrite <- !app_assoc.
Qed.

Lemma run_unencodable (argv : list str) (ns : Namespace) (w : world) :
  parse_args argv = inl ns ->
  encodable (format_value (location ns)) = false ->
  run argv w =
  (1%Z, write_stderr (traceback (UnicodeEncodeError (notice (location ns))))
          w).
Proof.
  intros H Henc. unfold run, main, mbind, parser_parse_args. rewrite H.
  unfold mret. now rewrite get_humidity_eq, Henc.
Qed.

Lemma run_error (argv : list str) (message : str) (w : world) :
  parse_args argv = inr (ExitError message) ->
  run argv w =
  (2%Z, write_stderr (prog ++ py ": error: " ++ message ++ [newline])
          (write_stderr format_usage w)).
Proof.
  intros H. unfold run, main, mbind, parser_parse_args. now rewrite H.
Qed.

Lemma run_help (argv : list str) (w : world) :
  parse_args argv = inr ExitHelp ->
  run argv w = (0%Z, write_stdout format_help w).
Proof.
  intros H. unfold run, main, mbind, parser_parse_args. now rewrite H.
Qed.

Lemma unknown_flag_alone (flag : str) :
  unknown_flag flag = true ->
  parse_args [flag] = inr (ExitError (py "unrecognized arguments: " ++ flag)).
Proof.
  unfold unknown_flag. intros H.
  destruct (str_eqb flag (py "--")) eqn:Hdd.
  - apply str_eqb_eq in Hdd. subst flag. vm_compute in H. discriminate.
  - unfold parse_args, parse_known_args, _parse_known_args.
    cbn [arg_string_pattern_parts]. rewrite Hdd.
    destruct (_parse_optional flag) as [[[[[a|] os] e]|]|]; try discriminate.
    reflexivity.
Qed.

(** C5, as amended: when argument parsing succeeds and standard output can
    encode the location, the run appends to standard output exactly the
    notice and a line feed, then ["45% (Simulated)"] and a line feed; this
    output is exactly two lines, the notice and then the result, whenever
    the location holds no line feed. *)
Theorem successful_run_output (argv : list str) (args : Namespace) (w : world) :
  parse_args argv = inl args ->
  encodable (format_value (location args)) = true ->
  stdout (snd (run argv w)) =
    stdout w ++ notice (location args) ++ [newline] ++ result_line
      ++ [newline]
  /\ (contains newline (format_value (location args)) = false ->
      lines (notice (location args) ++ [newline] ++ result_line ++ [newline])
      = [notice (location args); py "45% (Simulated)"]).
Proof.
  intros H Henc. split; [now rewrite (run_parsed _ _ w H Henc)|]. intros Hnl.
  change (notice (location args) ++ [newline] ++ result_line ++ [newline])
    with (notice (location args) ++ newline :: result_line ++ [newline]).
  rewrite lines_one_more.
  - reflexivity.
  - unfold notice. rewrite !contains_app, Hnl. reflexivity.
Qed.

(** C6, as amended: a run ends in one of three ways.  An argument-parsing
    failure writes the usage and the error message to standard error and
    exits with status 2; a missing value for [--location] and an unknown
    flag are such failures.  A location that standard output cannot encode
    parses, and the [print] of the notice raises [UnicodeEncodeError]: the
    traceback goes to standard error, nothing to standard output, and the
    exit status is 1.  Every other run exits with status 0 and writes
    nothing to standard error. *)
Theorem exit_status_by_outcome :
  (forall (argv : list str) (w : world),
      (exists message,
          parse_args argv = inr (ExitError message)
          /\ run argv w =
             (2%Z, write_stderr (prog ++ py ": error: " ++ message ++ [newline])
                     (write_stderr format_usage w)))
      \/ (exists args,
             parse_args argv = inl args
             /\ encodable (format_value (location args)) = false
             /\ run argv w =
                (1%Z, write_stderr
                        (traceback
                           (UnicodeEncodeError (notice (location args)))) w))
      \/ ((forall message, parse_args argv <> inr (ExitError message))
          /\ (forall args,
                 parse_args argv = inl args ->
                 encodable (format_value (location args)) = true)
          /\ fst (run argv w) = 0%Z
          /\ stderr (snd (run argv w)) = stderr w))
  /\ parse_args [py "--location"]
     = inr (ExitError (py "argument --location: expected one argument"))
  /\ (forall flag : str,
         unknown_flag flag = true ->
         parse_args [flag]
         = inr (ExitError (py "unrecognized arguments: " ++ flag))).
Proof.
  split; [|split].
  - intros argv w. destruct (parse_args argv) as [ns|[message|]] eqn:H.
    + destruct (encodable (format_value (location ns))) eqn:Henc.
      * right. right. rewrite (run_parsed _ _ w H Henc).
        repeat split; [congruence|].
        intros args E. injection E as <-. exact Henc.
      * right. left. exists ns. repeat split; [assumption|].
        now apply run_unencodable.
    + left. exists message. split; [reflexivity|]. now apply run_error.
    + right. right. rewrite (run_help _ w H).
      repeat split; congruence.
  - reflexivity.
  - exact unknown_flag_alone.
Qed.

(** ** The main loop of the parser, equation by equation *)

Lemma consume_option ns ex s a os e following :
  consume ns ex ((s, KO (Some a, os, e)) :: following) =
  match consume_optional (a, os, e) following with
  | Raise x => Raise x
  | Ret (action_tuples, used) =>
      match take_actions action_tuples ns with
      | Raise x => Raise x
      | Ret ns' =>
          match used, following with
          | S _, _ :: following' => consume ns' ex following'
          | _, _ => consume ns' ex following
          end
      end
  end.
Proof. reflexivity. Qed.

Lemma consume_skip ns ex s k following :
  option_of k = None ->
  consume ns ex ((s, k) :: following) = consume ns (ex ++ [s]) following.
Proof.
  destruct k as [[[[a|] os] e]| |]; simpl; intros H;
    try discriminate; reflexivity.
Qed.

Lemma consume_explicit_eq a os e following :
  consume_explicit a os e following =
  (arg_count <~ _match_argument a [KA] ;;
   let otherwise :=
     if Nat.eqb arg_count 1
     then Ret ([(a, [e], os)], 0)
     else Raise (ArgumentError a (ignored_explicit_argument e)) in
   match e with
   | c :: new_explicit_arg =>
       if Nat.eqb arg_count 0 && negb (contains (nth 1 os 0%N) prefix_chars)
       then
         let os' := [hd 0%N os; c] in
         match lookup os' _option_string_actions with
         | Some a' =>
             '(action_tuples, used) <~
               match new_explicit_arg with
               | [] => consume_following a' os' following
               | _ => consume_explicit a' os' new_explicit_arg following
               end ;;
             Ret ((a, [], os) :: action_tuples, used)
         | None => Raise (ArgumentError a (ignored_explicit_argument e))
         end
       else otherwise
   | [] => otherwise
   end).
Proof. destruct e; reflexivity. Qed.

(** The only option string of two characters is [-h]. *)
Lemma lookup_short (x c : char) (a : action) :
  lookup [x; c] _option_string_actions = Some a -> a = HelpAction.
Proof.
  unfold _option_string_actions. cbn [lookup].
  destruct (str_eqb [x; c] (py "-h")); [congruence|].
  destruct (str_eqb [x; c] (py "--help")); [congruence|].
  replace (str_eqb [x; c] (py "--location")) with false; [discriminate|].
  cbn. destruct (N.eqb x 45), (N.eqb c 45); reflexivity.
Qed.

Lemma consume_store_explicit ns ex s os e following :
  consume ns ex ((s, KO (Some StoreLocation, os, Some e)) :: following)
  = consume (store ns e) ex following.
Proof.
  rewrite consume_option. cbn [consume_optional].
  rewrite consume_explicit_eq. destruct e; reflexivity.
Qed.

Lemma consume_store_next ns ex s os v following :
  consume ns ex ((s, KO (Some StoreLocation, os, None)) :: (v, KA) :: following)
  = consume (store ns v) ex following.
Proof. reflexivity. Qed.

Lemma consume_store_missing ns ex s os following :
  starts_with_A following = false ->
  consume ns ex ((s, KO (Some StoreLocation, os, None)) :: following)
  = Raise (ArgumentError StoreLocation (py "expected one argument")).
Proof.
  intros H. rewrite consume_option.
  unfold consume_optional, consume_following, _match_argument.
  cbn [nargs]. destruct following as [|[v k] following]; [reflexivity|].
  cbn [map snd starts_with_A] in *. rewrite H. reflexivity.
Qed.

(** The help option never depends on the strings that follow it. *)
Lemma consume_explicit_help os e following :
  consume_explicit HelpAction os e following
  = consume_explicit HelpAction os e [].
Proof.
  revert os. induction e as [|c e IH]; intros os.
  - reflexivity.
  - rewrite (consume_explicit_eq HelpAction os (c :: e) following),
            (consume_explicit_eq HelpAction os (c :: e) []).
    cbn [_match_argument nargs pbind].
    destruct (Nat.eqb 0 0 && negb (contains (nth 1 os 0%N) prefix_chars));
      [|reflexivity].
    cbv zeta.
    destruct (lookup [hd 0%N os; c] _option_string_actions) as [a'|] eqn:Hl;
      [|reflexivity].
    apply lookup_short in Hl. subst a'.
    destruct e as [|c' e'].
    + reflexivity.
    + now rewrite IH.
Qed.

Lemma consume_optional_head a os e following action_tuples used :
  consume_optional (a, os, e) following = Ret (action_tuples, used) ->
  exists args more, action_tuples = (a, args, os) :: more.
Proof.
  destruct e as [e|]; cbn [consume_optional].
  - rewrite consume_explicit_eq.
    destruct (_match_argument a [KA]) as [n|]; [|discriminate].
    cbn [pbind]. cbv zeta.
    assert (Ho : (if Nat.eqb n 1
                  then Ret ([(a, [e], os)], 0)
                  else Raise (ArgumentError a (ignored_explicit_argument e)))
                 = Ret (action_tuples, used) ->
                 exists args more, action_tuples = (a, args, os) :: more).
    { destruct (Nat.eqb n 1); [|discriminate]. intros H; injection H as <- _.
      eauto. }
    destruct e as [|c e']; [exact Ho|].
    destruct (Nat.eqb n 0 && negb (contains (nth 1 os 0%N) prefix_chars));
      [|exact Ho].
    destruct (lookup [hd 0%N os; c] _option_string_actions); [|discriminate].
    match goal with
    | |- context [pbind ?m _] => destruct m as [[ts u]|]
    end; cbn [pbind]; [|discriminate].
    intros H; injection H as <- _. eauto.
  - unfold consume_following.
    destruct (_match_argument a (map snd following)); cbn [pbind];
      [|discriminate].
    intros H; injection H as <- _. eauto.
Qed.

Lemma consume_help ns ex s os e following :
  consume ns ex ((s, KO (Some HelpAction, os, e)) :: following)
  = help_outcome os e.
Proof.
  rewrite consume_option. unfold help_outcome.
  replace (consume_optional (HelpAction, os, e) following)
    with (consume_optional (HelpAction, os, e) []).
  - destruct (consume_optional (HelpAction, os, e) []) as [[ts u]|] eqn:H;
      [|reflexivity].
    apply consume_optional_head in H as (args & more & ->). reflexivity.
  - destruct e as [e|]; cbn [consume_optional].
    + symmetry. apply consume_explicit_help.
    + reflexivity.
Qed.

Lemma help_outcome_not_ret {A} os e (r : A) : help_outcome os e <> Ret r.
Proof.
  unfold help_outcome.
  destruct (consume_optional (HelpAction, os, e) []); discriminate.
Qed.

(** Induction along the loop: the six shapes a list of parts can have at its
    head, each with what the loop goes on with. *)
Lemma consume_cases_ind (P : Namespace -> list str -> list (str * kind) -> Prop) :
  (forall ns ex, P ns ex []) ->
  (forall ns ex s k following,
      option_of k = None ->
      P ns (ex ++ [s]) following -> P ns ex ((s, k) :: following)) ->
  (forall ns ex s os e following,
      P (store ns e) ex following ->
      P ns ex ((s, KO (Some StoreLocation, os, Some e)) :: following)) ->
  (forall ns ex s os v following,
      P (store ns v) ex following ->
      P ns ex ((s, KO (Some StoreLocation, os, None)) :: (v, KA) :: following)) ->
  (forall ns ex s os following,
      starts_with_A following = false ->
      P ns ex ((s, KO (Some StoreLocation, os, None)) :: following)) ->
  (forall ns ex s os e following,
      P ns ex ((s, KO (Some HelpAction, os, e)) :: following)) ->
  forall parts ns ex, P ns ex parts.
Proof.
  intros Hnil Hskip Hexpl Hnext Hmiss Hhelp parts.
  assert (H : forall n parts, length parts <= n -> forall ns ex, P ns ex parts).
  { induction n as [|n IH]; intros [|[s k] following] Hlen ns ex;
      try apply Hnil; simpl in Hlen; [lia|].
    destruct (option_of k) as [[[a os] e]|] eqn:Hk.
    - destruct k as [[[[a'|] os'] e']| |]; try discriminate.
      injection Hk as -> -> ->.
      destruct a; [apply Hhelp|].
      destruct e as [e|]; [apply Hexpl, IH; lia|].
      destruct following as [|[v kv] following'].
      + now apply Hmiss.
      + destruct kv; try (now apply Hmiss).
        apply Hnext, IH. simpl in Hlen. lia.
    - apply Hskip; [assumption|]. apply IH. lia. }
  intros ns ex. now apply (H (length parts)).
Qed.

(** [extras] only grows. *)
Lemma consume_extras parts : forall ns ex ns' ex',
  consume ns ex parts = Ret (ns', ex') -> exists more, ex' = ex ++ more.
Proof.
  intros ns ex. revert parts ns ex.
  apply (consume_cases_ind
           (fun ns ex parts => forall ns' ex',
                consume ns ex parts = Ret (ns', ex') ->
                exists more, ex' = ex ++ more)).
  - intros ns ex ns' ex' H. injection H as _ <-. exists []. now rewrite app_nil_r.
  - intros ns ex s k following Hk IH ns' ex'. rewrite consume_skip by exact Hk.
    intros H. destruct (IH _ _ H) as [more ->]. exists (s :: more).
    now rewrite <- app_assoc.
  - intros ns ex s os e following IH ns' ex'. rewrite consume_store_explicit.
    apply IH.
  - intros ns ex s os v following IH ns' ex'. rewrite consume_store_next.
    apply IH.
  - intros ns ex s os following Hf ns' ex'.
    rewrite consume_store_missing by exact Hf. discriminate.
  - intros ns ex s os e following ns' ex'. rewrite consume_help.
    intros H. now apply help_outcome_not_ret in H.
Qed.

(** Without a part that selects [--location] the namespace stays as it is. *)
Lemma consume_no_store parts : forall ns ex ns' ex',
  forallb (fun p => negb (stores (snd p))) parts = true ->
  consume ns ex parts = Ret (ns', ex') -> ns' = ns.
Proof.
  intros ns ex. revert parts ns ex.
  apply (consume_cases_ind
           (fun ns ex parts => forall ns' ex',
                forallb (fun p => negb (stores (snd p))) parts = true ->
                consume ns ex parts = Ret (ns', ex') -> ns' = ns)).
  - intros ns ex ns' ex' _ H. now injection H as <- _.
  - intros ns ex s k following Hk IH ns' ex' Hall.
    rewrite consume_skip by exact Hk. cbn [forallb] in Hall.
    apply andb_true_iff in Hall as [_ Hall]. now apply IH.
  - intros ns ex s os e following _ ns' ex' Hall. discriminate Hall.
  - intros ns ex s os v following _ ns' ex' Hall. discriminate Hall.
  - intros ns ex s os following _ ns' ex' Hall. discriminate Hall.
  - intros ns ex s os e following ns' ex' _. rewrite consume_help.
    intros H. now apply help_outcome_not_ret in H.
Qed.

(** The help exit needs a part that selects the help option. *)
Lemma consume_help_exit parts : forall ns ex,
  consume ns ex parts = Raise (Exiting ExitHelp) ->
  existsb (fun p => helps (snd p)) parts = true.
Proof.
  intros ns ex. revert parts ns ex.
  apply (consume_cases_ind
           (fun ns ex parts =>
              consume ns ex parts = Raise (Exiting ExitHelp) ->
              existsb (fun p => helps (snd p)) parts = true)).
  - discriminate.
  - intros ns ex s k following Hk IH. rewrite consume_skip by exact Hk.
    intros H. cbn [existsb]. rewrite (IH H). apply orb_true_r.
  - intros ns ex s os e following IH. rewrite consume_store_explicit.
    intros H. cbn [existsb]. rewrite (IH H). apply orb_true_r.
  - intros ns ex s os v following IH. rewrite consume_store_next.
    intros H. cbn [existsb]. rewrite (IH H). now rewrite !orb_true_r.
  - intros ns ex s os following Hf.
    rewrite consume_store_missing by exact Hf. discriminate.
  - reflexivity.
Qed.

(** A part that is not an option of the parser and does not directly follow a
    pending [--location] ends up in [extras]. *)
Lemma consume_stray parts : forall ns ex before s k rest ns' ex',
  parts = before ++ (s, k) :: rest ->
  option_of k = None ->
  (forall before' f kf, before = before' ++ [(f, kf)] -> pending kf = false) ->
  consume ns ex parts = Ret (ns', ex') -> ex' <> [].
Proof.
  intros ns ex. revert parts ns ex.
  apply (consume_cases_ind
           (fun ns ex parts => forall before s k rest ns' ex',
                parts = before ++ (s, k) :: rest ->
                option_of k = None ->
                (forall before' f kf,
                    before = before' ++ [(f, kf)] -> pending kf = false) ->
                consume ns ex parts = Ret (ns', ex') -> ex' <> [])).
  - intros ns ex [|? ?] s k rest ns' ex' E; discriminate E.
  - intros ns ex s0 k0 following Hk0 _ before s k rest ns' ex' _ _ _.
    rewrite consume_skip by exact Hk0. intros H.
    apply consume_extras in H as [more ->]. now destruct ex.
  - intros ns ex s0 os e following IH before s k rest ns' ex' E Hk Hb.
    rewrite consume_store_explicit.
    destruct before as [|b before'].
    + injection E as _ <- _. discriminate Hk.
    + injection E as _ E. apply (IH before' s k rest); try assumption.
      intros q f kf ->. apply (Hb (b :: q) f kf). reflexivity.
  - intros ns ex s0 os v following IH before s k rest ns' ex' E Hk Hb.
    rewrite consume_store_next.
    destruct before as [|b [|b' before'']].
    + injection E as _ <- _. discriminate Hk.
    + injection E as <- _ _ _.
      specialize (Hb [] s0 (KO (Some StoreLocation, os, None)) eq_refl).
      discriminate Hb.
    + injection E as _ _ E. apply (IH before'' s k rest); try assumption.
      intros q f kf ->. apply (Hb (b :: b' :: q) f kf). reflexivity.
  - intros ns ex s0 os following Hf before s k rest ns' ex' _ _ _.
    rewrite consume_store_missing by exact Hf. discriminate.
  - intros ns ex s0 os e following before s k rest ns' ex' _ _ _.
    rewrite consume_help. intros H. now apply help_outcome_not_ret in H.
Qed.

(** ** The first loop: what the letters of the pattern stand for *)

Lemma _get_option_tuples_raise (c0 c1 : char) (rest : str) (x : exn) :
  _get_option_tuples c0 c1 rest = Raise x ->
  exists message, x = Exiting (ExitError message).
Proof.
  unfold _get_option_tuples.
  destruct (contains c0 prefix_chars && contains c1 prefix_chars).
  - destruct (contains equals_sign (c0 :: c1 :: rest));
      [destruct (split1 equals_sign (c0 :: c1 :: rest))|]; discriminate.
  - destruct (contains c0 prefix_chars && negb (contains c1 prefix_chars));
      [discriminate|].
    intros H; injection H as <-; eauto.
Qed.

Lemma _parse_optional_raise (s : str) (x : exn) :
  _parse_optional s = Raise x -> exists message, x = Exiting (ExitError message).
Proof.
  unfold _parse_optional.
  destruct s as [|c0 tail]; [discriminate|].
  destruct (negb (contains c0 prefix_chars)); [discriminate|].
  destruct (lookup (c0 :: tail) _option_string_actions); [discriminate|].
  destruct tail as [|c1 rest]; [discriminate|].
  cbv zeta.
  match goal with
  | |- context [match ?b with Some t => Ret (Some t) | None => _ end] =>
      destruct b; [discriminate|]
  end.
  destruct (_get_option_tuples c0 c1 rest) as [ts|e] eqn:Ht; cbn [pbind].
  - destruct ts as [|t [|t' ts]].
    + destruct (_negative_number_matcher (c0 :: c1 :: rest)
                && negb _has_negative_number_optionals); [discriminate|].
      destruct (contains space (c0 :: c1 :: rest)); discriminate.
    + discriminate.
    + intros H; injection H as <-; eauto.
  - intros H; injection H as <-. now apply _get_option_tuples_raise in Ht.
Qed.

Lemma pattern_parts_ret (args : list str) : forall parts,
  arg_string_pattern_parts args = Ret parts ->
  map fst parts = args /\ Forall classified parts.
Proof.
  induction args as [|a args IH]; intros parts; cbn [arg_string_pattern_parts].
  - intros H; injection H as <-. split; constructor.
  - destruct (str_eqb a (py "--")).
    + intros H; injection H as <-. split.
      * cbn [map fst]. f_equal. rewrite map_map. cbn [fst]. apply map_id.
      * constructor; [exact I|]. apply Forall_forall. intros p Hp.
        apply in_map_iff in Hp as (s & <- & _). exact I.
    + destruct (_parse_optional a) as [t|] eqn:Ha; cbn [pbind];
        [|discriminate].
      destruct (arg_string_pattern_parts args) as [parts'|]; cbn [pbind];
        [|discriminate].
      intros H; injection H as <-. destruct (IH parts' eq_refl) as [Hm Hc].
      split; [cbn [map fst]; now rewrite Hm|].
      constructor; [|assumption].
      unfold classified; cbn [fst snd]. now destruct t.
Qed.

Lemma pattern_parts_raise (args : list str) (x : exn) :
  arg_string_pattern_parts args = Raise x ->
  exists message, x = Exiting (ExitError message).
Proof.
  induction args as [|a args IH]; cbn [arg_string_pattern_parts].
  - discriminate.
  - destruct (str_eqb a (py "--")); [discriminate|].
    destruct (_parse_optional a) as [t|] eqn:Ha; cbn [pbind].
    + destruct (arg_string_pattern_parts args); cbn [pbind]; [discriminate|].
      intros H; injection H as <-. now apply IH.
    + intros H; injection H as <-. now apply _parse_optional_raise in Ha.
Qed.

(** [parse_args] in terms of the two loops. *)
Lemma parse_args_eq (argv : list str) :
  parse_args argv =
  match arg_string_pattern_parts argv with
  | Raise (Exiting x) => inr x
  | Raise (ArgumentError a message) =>
      inr (ExitError (argument_error_str a message))
  | Ret parts =>
      match consume defaults [] parts with
      | Ret (namespace, []) => inl namespace
      | Ret (_, extras) =>
          inr (ExitError
                 (py "unrecognized arguments: " ++ join (py " ") extras))
      | Raise (ArgumentError a message) =>
          inr (ExitError (argument_error_str a message))
      | Raise (Exiting x) => inr x
      end
  end.
Proof.
  unfold parse_args, parse_known_args, _parse_known_args, defaults.
  destruct (arg_string_pattern_parts argv) as [parts|[a m|x]]; cbn [pbind];
    try reflexivity.
  destruct (consume _ [] parts) as [[ns ex]|[a m|x]]; reflexivity.
Qed.

Lemma parse_args_inl (argv : list str) (args : Namespace) :
  parse_args argv = inl args ->
  exists parts,
    arg_string_pattern_parts argv = Ret parts
    /\ consume defaults [] parts = Ret (args, []).
Proof.
  rewrite parse_args_eq.
  destruct (arg_string_pattern_parts argv) as [parts|[a m|x]];
    try discriminate.
  destruct (consume defaults [] parts) as [[ns [|e ex]]|[a m|x]] eqn:Hc;
    try discriminate.
  intros H; injection H as <-. eauto.
Qed.

Lemma parse_args_help (argv : list str) :
  parse_args argv = inr ExitHelp ->
  exists parts,
    arg_string_pattern_parts argv = Ret parts
    /\ consume defaults [] parts = Raise (Exiting ExitHelp).
Proof.
  rewrite parse_args_eq.
  destruct (arg_string_pattern_parts argv) as [parts|[a m|x]] eqn:Hp;
    try discriminate.
  - destruct (consume defaults [] parts) as [[ns [|e ex]]|[a m|x]] eqn:Hc;
      try discriminate.
    intros H; injection H as ->. eauto.
  - apply pattern_parts_raise in Hp as [m Hm]. injection Hm as ->.
    discriminate.
Qed.

(** ** Strings by what the parser takes them for *)

Lemma classified_stores (p : str * kind) :
  classified p -> stores (snd p) = true -> selects_location (fst p) = true.
Proof.
  unfold classified, stores, selects_location.
  destruct p as [s [[[[[|]|] os] e]| |]]; cbn [fst snd option_of];
    try discriminate.
  now intros ->.
Qed.

Lemma classified_helps (p : str * kind) :
  classified p -> helps (snd p) = true -> selects_help (fst p) = true.
Proof.
  unfold classified, helps, selects_help.
  destruct p as [s [[[[[|]|] os] e]| |]]; cbn [fst snd option_of];
    try discriminate.
  now intros ->.
Qed.

Lemma classified_pending (p : str * kind) :
  classified p -> pending (snd p) = true -> awaits_argument (fst p) = true.
Proof.
  unfold classified, pending, awaits_argument.
  destruct p as [s [[[[[|]|] os] [e|]]| |]]; cbn [fst snd option_of];
    try discriminate.
  now intros ->.
Qed.

Lemma classified_argument (p : str * kind) :
  classified p -> is_argument (fst p) = true -> option_of (snd p) = None.
Proof.
  unfold classified, is_argument.
  destruct p as [s [[[[a|] os] e]| |]]; cbn [fst snd option_of];
    try reflexivity.
  intros Hc. rewrite Hc, andb_false_r. discriminate.
Qed.

(** ** The default location *)

(** C3: invoked without arguments the script resolves the location to the
    default ["Mountain View"] and prints the notice for it and then the
    result; more generally, whenever parsing succeeds on a command line on
    which no string selects [--location], the resolved location is
    ["Mountain View"] and standard output gets that notice and the result. *)
Theorem default_location_when_flag_absent :
  (forall w : world,
      run [] w =
      (0%Z, write_stdout
              (py "Fetching live humidity for Mountain View..." ++ [newline]
                 ++ py "45% (Simulated)" ++ [newline]) w))
  /\ (forall (argv : list str) (args : Namespace) (w : world),
         forallb (fun s => negb (selects_location s)) argv = true ->
         parse_args argv = inl args ->
         location args = PyStr (py "Mountain View")
         /\ run argv w =
            (0%Z, write_stdout
                    (py "Fetching live humidity for Mountain View..."
                       ++ [newline] ++ py "45% (Simulated)" ++ [newline]) w)).
Proof.
  split.
  - intros w. now rewrite (run_parsed [] defaults w eq_refl).
  - intros argv args w Habsent Hparse.
    enough (E : args = defaults).
    { subst args. split; [reflexivity|].
      now rewrite (run_parsed argv defaults w Hparse). }
    apply parse_args_inl in Hparse as (parts & Hparts & Hloop).
    apply pattern_parts_ret in Hparts as [Hfst Hcls].
    assert (Hnone : forallb (fun p => negb (stores (snd p))) parts = true).
    { apply forallb_forall. intros p Hp.
      destruct (stores (snd p)) eqn:Hs; [|reflexivity].
      rewrite Forall_forall in Hcls.
      pose proof (classified_stores p (Hcls p Hp) Hs) as Hsel.
      rewrite forallb_forall in Habsent.
      specialize (Habsent (fst p)). rewrite Hsel in Habsent.
      apply Habsent. rewrite <- Hfst. now apply in_map. }
    now rewrite (consume_no_store _ _ _ _ _ Hnone Hloop).
Qed.

(** ** Strings that are not flags *)

(** A string that does not begin with a hyphen is an argument. *)
Lemma plain_word_is_argument (c : char) (s : str) :
  c <> hyphen -> is_argument (c :: s) = true.
Proof.
  intros Hc. apply N.eqb_neq in Hc.
  unfold is_argument, _parse_optional, prefix_chars, contains.
  cbn [py list_ascii_of_string map existsb str_eqb].
  change (N_of_ascii "-") with hyphen. rewrite Hc. reflexivity.
Qed.

(** C9, as amended: a command line with a positional string (an argument
    that does not directly follow a [--location] flag waiting for its value)
    never reaches the lookup.  The run is an argument-parsing failure,
    with the usage and the message on standard error and exit status 2,
    unless some string of the command line selects the help option and the
    run ends there, with the help on standard output and exit status 0. *)
Theorem positional_never_accepted
  (before : list str) (t : str) (after : list str) (w : world) :
  is_argument t = true ->
  (forall before' f, before = before' ++ [f] -> awaits_argument f = false) ->
  (exists message,
      parse_args (before ++ t :: after) = inr (ExitError message)
      /\ run (before ++ t :: after) w =
         (2%Z, write_stderr (prog ++ py ": error: " ++ message ++ [newline])
                 (write_stderr format_usage w)))
  \/ (existsb selects_help (before ++ t :: after) = true
      /\ parse_args (before ++ t :: after) = inr ExitHelp
      /\ run (before ++ t :: after) w = (0%Z, write_stdout format_help w)).
Proof.
  intros Ht Hbefore.
  destruct (parse_args (before ++ t :: after)) as [args|[message|]] eqn:Hparse.
  - exfalso.
    apply parse_args_inl in Hparse as (parts & Hparts & Hloop).
    apply pattern_parts_ret in Hparts as [Hfst Hcls].
    apply map_eq_app in Hfst as (p1 & p2 & -> & Hp1 & Hp2).
    apply map_eq_cons in Hp2 as (b & p2' & -> & Hb & Hp2').
    apply Forall_app in Hcls as [Hc1 Hc2].
    inversion Hc2 as [|? ? Hcb _]; subst.
    destruct b as [s k]. cbn [fst] in *.
    refine (consume_stray _ defaults [] p1 s k p2' args [] eq_refl _ _
              Hloop eq_refl).
    + exact (classified_argument _ Hcb Ht).
    + intros q f kf ->. destruct (pending kf) eqn:Hpend; [|reflexivity].
      apply Forall_app in Hc1 as [_ Hcf].
      inversion Hcf as [|? ? Hcf' _]; subst.
      pose proof (classified_pending _ Hcf' Hpend) as Haw. cbn [fst] in Haw.
      rewrite (Hbefore (map fst q) f) in Haw; [discriminate|].
      now rewrite map_app.
  - left. exists message. split; [reflexivity|]. now apply run_error.
  - right. split; [|split; [reflexivity|now apply run_help]].
    apply parse_args_help in Hparse as (parts & Hparts & Hloop).
    apply pattern_parts_ret in Hparts as [Hfst Hcls].
    apply consume_help_exit in Hloop.
    apply existsb_exists in Hloop as (p & Hp & Hh).
    apply existsb_exists. exists (fst p). split.
    + rewrite <- Hfst. now apply in_map.
    + rewrite Forall_forall in Hcls. exact (classified_helps p (Hcls p Hp) Hh).
Qed.

(** ** The flag and its abbreviations *)

Lemma startswith_firstn (s p : str) :
  startswith s p = true -> p = firstn (length p) s.
Proof.
  revert s. induction p as [|y p IH]; intros [|x s]; cbn [startswith];
    try discriminate; try reflexivity.
  intros H. apply andb_true_iff in H as [Hx Hs]. apply N.eqb_eq in Hx.
  cbn [length firstn]. subst y. f_equal. now apply IH.
Qed.

Lemma is_location_flag_cases (s : str) :
  is_location_flag s = true -> In s location_flags.
Proof.
  unfold is_location_flag. intros H.
  apply andb_true_iff in H as [Hp Hu].
  pose proof (startswith_firstn _ _ Hp) as E.
  revert E Hu. generalize (length s) as n. intros n.
  do 11 (destruct n as [|n];
         [intros ->; vm_compute; intuition (auto; discriminate)|]).
  intros ->. vm_compute. intuition auto.
Qed.

Lemma location_flag_parsed (flag : str) :
  is_location_flag flag = true ->
  str_eqb flag (py "--") = false
  /\ _parse_optional flag
     = Ret (Some (Some StoreLocation, py "--location", None)).
Proof.
  intros H. apply is_location_flag_cases in H.
  repeat (destruct H as [<-|H]; [split; reflexivity|]). destruct H.
Qed.

Lemma location_flag_joined_parsed (flag value : str) :
  is_location_flag flag = true ->
  str_eqb (flag ++ equals_sign :: value) (py "--") = false
  /\ _parse_optional (flag ++ equals_sign :: value)
     = Ret (Some (Some StoreLocation, py "--location", Some value)).
Proof.
  intros H. apply is_location_flag_cases in H.
  repeat (destruct H as [<-|H]; [split; reflexivity|]). destruct H.
Qed.

Lemma store_text (ns : Namespace) (value : str) :
  str_eqb value (py "--") = false ->
  store ns value = {| location := PyStr value |}.
Proof.
  intros H. unfold store, setattr_location, _get_values.
  cbn [remove_first]. now rewrite H.
Qed.

Lemma is_argument_parsed (value : str) :
  is_argument value = true ->
  str_eqb value (py "--") = false /\ _parse_optional value = Ret None.
Proof.
  unfold is_argument. intros H. apply andb_true_iff in H as [H1 H2].
  apply negb_true_iff in H1. split; [assumption|].
  now destruct (_parse_optional value) as [[t|]|].
Qed.

Lemma pattern_parts_occurrences (occs : list occurrence) :
  forallb well_formed occs = true ->
  arg_string_pattern_parts (flat_map tokens occs)
  = Ret (flat_map parts_of occs).
Proof.
  induction occs as [|o occs IH]; [reflexivity|].
  cbn [forallb flat_map]. intros H. apply andb_true_iff in H as [Ho Hs].
  specialize (IH Hs).
  destruct o as [flag value|flag value]; cbn [well_formed] in Ho;
    apply andb_true_iff in Ho as [Hf Hv]; cbn [tokens parts_of app].
  - destruct (location_flag_parsed _ Hf) as [Hf1 Hf2].
    destruct (is_argument_parsed _ Hv) as [Hv1 Hv2].
    cbn [arg_string_pattern_parts]. rewrite Hf1, Hf2, Hv1, Hv2, IH.
    reflexivity.
  - destruct (location_flag_joined_parsed flag value Hf) as [Hf1 Hf2].
    cbn [arg_string_pattern_parts]. rewrite Hf1, Hf2, IH. reflexivity.
Qed.

Lemma consume_occurrences (occs : list occurrence) : forall ns last,
  forallb well_formed (occs ++ [last]) = true ->
  consume ns [] (flat_map parts_of (occs ++ [last]))
  = Ret ({| location := PyStr (value_of last) |}, []).
Proof.
  assert (Hone : forall o ns rest,
             well_formed o = true ->
             consume ns [] (parts_of o ++ rest)
             = consume {| location := PyStr (value_of o) |} [] rest).
  { intros [flag value|flag value] ns rest Ho; cbn [well_formed] in Ho;
      apply andb_true_iff in Ho as [_ Hv]; cbn [parts_of app value_of].
    - rewrite consume_store_next, store_text; [reflexivity|].
      now apply is_argument_parsed.
    - rewrite consume_store_explicit, store_text; [reflexivity|].
      now apply negb_true_iff. }
  induction occs as [|o occs IH]; intros ns last; cbn [app forallb flat_map];
    intros H; apply andb_true_iff in H as [Ho Hs].
  - rewrite Hone by assumption. reflexivity.
  - rewrite Hone by assumption. now apply IH.
Qed.

Lemma parse_args_occurrences (occs : list occurrence) (last : occurrence) :
  forallb well_formed (occs ++ [last]) = true ->
  parse_args (flat_map tokens (occs ++ [last]))
  = inl {| location := PyStr (value_of last) |}.
Proof.
  intros H. rewrite parse_args_eq, pattern_parts_occurrences by assumption.
  now rewrite consume_occurrences.
Qed.

(** C8, as amended: when the flag is supplied several times, each time with
    a value, either in the next string, which then is an argument, or after
    [=], where it is any text but [--] (the flag possibly abbreviated),
    parsing succeeds and the value supplied last is the location of the
    notice, which is printed when standard output can encode it. *)
Theorem last_location_wins
  (earlier : list occurrence) (last : occurrence) (w : world) :
  forallb well_formed (earlier ++ [last]) = true ->
  parse_args (flat_map tokens (earlier ++ [last]))
    = inl {| location := PyStr (value_of last) |}
  /\ (encodable (value_of last) = true ->
      run (flat_map tokens (earlier ++ [last])) w =
      (0%Z, write_stdout
              (py "Fetching live humidity for " ++ value_of last ++ py "..."
                 ++ [newline] ++ py "45% (Simulated)" ++ [newline]) w)).
Proof.
  intros H. pose proof (parse_args_occurrences _ _ H) as Hparse.
  split; [assumption|]. intros Henc.
  rewrite (run_parsed _ _ w Hparse Henc). unfold notice, result_line.
  cbn [location format_value]. now rewrite <- !app_assoc.
Qed.

(** ** Two spellings of one option *)

(** The loop never looks at the string of a part that is an option of the
    parser, only at what it stands for. *)
Lemma consume_spelling (x y : str) (a : action) (os : str) (e : option str)
  (rest : list (str * kind)) :
  forall parts ns ex before,
    parts = before ++ (x, KO (Some a, os, e)) :: rest ->
    consume ns ex parts
    = consume ns ex (before ++ (y, KO (Some a, os, e)) :: rest).
Proof.
  intros parts ns ex. revert parts ns ex.
  apply (consume_cases_ind
           (fun ns ex parts => forall before,
                parts = before ++ (x, KO (Some a, os, e)) :: rest ->
                consume ns ex parts
                = consume ns ex (before ++ (y, KO (Some a, os, e)) :: rest))).
  - intros ns ex [|? ?] E; discriminate E.
  - intros ns ex s k following Hk IH [|b before] E; cbn [app] in *.
    + injection E as _ -> _. cbn in Hk. discriminate Hk.
    + injection E as <- ->. rewrite !consume_skip by exact Hk. now apply IH.
  - intros ns ex s os' e' following IH [|b before] E; cbn [app] in *.
    + injection E as _ <- <- <- <-. now rewrite !consume_store_explicit.
    + injection E as <- ->. rewrite !consume_store_explicit. now apply IH.
  - intros ns ex s os' v following IH [|b [|b' before]] E; cbn [app] in *.
    + injection E as _ <- <- <- <-. now rewrite !consume_store_next.
    + discriminate E.
    + injection E as <- <- ->. rewrite !consume_store_next. now apply IH.
  - intros ns ex s os' following Hf [|b before] E; cbn [app] in *.
    + injection E as _ <- <- <- <-. now rewrite !consume_store_missing.
    + injection E as <- ->. rewrite !consume_store_missing;
        [reflexivity | | exact Hf].
      destruct before as [|[s' k'] before]; [reflexivity|exact Hf].
  - intros ns ex s os' e' following [|b before] E; cbn [app] in *.
    + injection E as _ <- <- <- <-. now rewrite !consume_help.
    + injection E as <- ->. now rewrite !consume_help.
Qed.

Lemma pattern_parts_spelling (x y : str) (t : option_tuple)
  (before after : list str) :
  ~ In (py "--") before ->
  str_eqb x (py "--") = false -> str_eqb y (py "--") = false ->
  _parse_optional x = Ret (Some t) -> _parse_optional y = Ret (Some t) ->
  match arg_string_pattern_parts (before ++ x :: after),
        arg_string_pattern_parts (before ++ y :: after) with
  | Ret px, Ret py' =>
      exists p1 p2, px = p1 ++ (x, KO t) :: p2 /\ py' = p1 ++ (y, KO t) :: p2
  | Raise ex, Raise ey => ex = ey
  | _, _ => False
  end.
Proof.
  intros Hdd Hx Hy Hpx Hpy.
  induction before as [|b before IH]; cbn [app arg_string_pattern_parts].
  - rewrite Hx, Hy, Hpx, Hpy. cbn [pbind].
    destruct (arg_string_pattern_parts after) as [p2|e]; cbn [pbind];
      [|reflexivity].
    exists [], p2. split; reflexivity.
  - destruct (str_eqb b (py "--")) eqn:Hb.
    + apply str_eqb_eq in Hb. exfalso. apply Hdd. now left.
    + assert (Hdd' : ~ In (py "--") before) by (intros Hin; apply Hdd; now right).
      specialize (IH Hdd').
      destruct (_parse_optional b) as [tb|eb]; cbn [pbind]; [|reflexivity].
      destruct (arg_string_pattern_parts (before ++ x :: after)) as [px|ex],
               (arg_string_pattern_parts (before ++ y :: after)) as [py'|ey];
        cbn [pbind]; try contradiction.
      * destruct IH as (p1 & p2 & -> & ->).
        now exists ((b, match tb with Some t0 => KO t0 | None => KA end) :: p1),
                   p2.
      * now subst.
Qed.

Lemma parse_args_spelling (x y : str) (a : action) (os : str)
  (e : option str) (before after : list str) :
  ~ In (py "--") before ->
  str_eqb x (py "--") = false -> str_eqb y (py "--") = false ->
  _parse_optional x = Ret (Some (Some a, os, e)) ->
  _parse_optional y = Ret (Some (Some a, os, e)) ->
  parse_args (before ++ x :: after) = parse_args (before ++ y :: after).
Proof.
  intros Hdd Hx Hy Hpx Hpy.
  pose proof (pattern_parts_spelling x y _ before after Hdd Hx Hy Hpx Hpy)
    as H.
  rewrite !parse_args_eq.
  destruct (arg_string_pattern_parts (before ++ x :: after)) as [px|ex],
           (arg_string_pattern_parts (before ++ y :: after)) as [py'|ey];
    try contradiction.
  - destruct H as (p1 & p2 & -> & ->).
    now rewrite (consume_spelling x y a os e p2 _ defaults [] p1 eq_refl).
  - now subst.
Qed.

Lemma run_parse_args (argv argv' : list str) (w : world) :
  parse_args argv = parse_args argv' -> run argv w = run argv' w.
Proof.
  intros H. unfold run, main, mbind, parser_parse_args. now rewrite H.
Qed.

(** C10: an unambiguous abbreviation of [--location] is accepted and behaves
    as the flag spelled out: in any command line where it stands as a flag
    (no [--] before it), with its value in the next string or after [=], the
    run is the same as with [--location]; followed by a value it parses to
    that value, and the run prints the notice for it and the result when
    standard output can encode it. *)
Theorem abbreviated_flag_accepted (flag : str) :
  is_location_flag flag = true ->
  (forall (before after : list str) (w : world),
      ~ In (py "--") before ->
      run (before ++ flag :: after) w
      = run (before ++ py "--location" :: after) w)
  /\ (forall (before after : list str) (value : str) (w : world),
         ~ In (py "--") before ->
         run (before ++ (flag ++ equals_sign :: value) :: after) w
         = run (before ++ (py "--location" ++ equals_sign :: value) :: after) w)
  /\ (forall (value : str) (w : world),
         is_argument value = true ->
         parse_args [flag; value] = inl {| location := PyStr value |}
         /\ (encodable value = true ->
             run [flag; value] w =
             (0%Z, write_stdout
                     (py "Fetching live humidity for " ++ value ++ py "..."
                        ++ [newline] ++ py "45% (Simulated)" ++ [newline])
                     w))).
Proof.
  intros Hflag.
  assert (Hfull : is_location_flag (py "--location") = true) by reflexivity.
  split; [|split].
  - intros before after w Hdd. apply run_parse_args.
    destruct (location_flag_parsed _ Hflag) as [H1 H2].
    destruct (location_flag_parsed _ Hfull) as [H3 H4].
    exact (parse_args_spelling _ _ _ _ _ before after Hdd H1 H3 H2 H4).
  - intros before after value w Hdd. apply run_parse_args.
    destruct (location_flag_joined_parsed flag value Hflag) as [H1 H2].
    destruct (location_flag_joined_parsed (py "--location") value Hfull)
      as [H3 H4].
    exact (parse_args_spelling _ _ _ _ _ before after Hdd H1 H3 H2 H4).
  - intros value w Hv.
    assert (Hwf : forallb well_formed ([] ++ [Separate flag value]) = true).
    { cbn [app forallb well_formed]. now rewrite Hflag, Hv. }
    pose proof (parse_args_occurrences [] _ Hwf) as Hparse.
    change (flat_map tokens ([] ++ [Separate flag value]))
      with [flag; value] in Hparse.
    change (value_of (Separate flag value)) with value in Hparse.
    split; [exact Hparse|]. intros Henc.
    rewrite (run_parsed _ _ w Hparse Henc).
    unfold notice, result_line. cbn [location format_value].
    now rewrite <- !app_assoc.
Qed.

(** * Further properties of the entry point *)

(** ** Command lines the first loop gets past *)

Lemma pattern_parts_parses (l : list str) :
  forallb parses l = true ->
  exists parts, arg_string_pattern_parts l = Ret parts /\ map fst parts = l.
Proof.
  intros H.
  assert (E : exists parts, arg_string_pattern_parts l = Ret parts).
  { induction l as [|a l IH]; [now exists []|].
    cbn [forallb] in H. apply andb_true_iff in H as [Ha Hl].
    cbn [arg_string_pattern_parts]. unfold parses in Ha.
    destruct (str_eqb a (py "--")); [eauto|]. cbn [orb] in Ha.
    destruct (_parse_optional a) as [t|]; [|discriminate].
    destruct (IH Hl) as [parts ->]. cbn [pbind]. eauto. }
  destruct E as [parts E]. exists parts. split; [assumption|].
  now apply pattern_parts_ret.
Qed.

Lemma pattern_parts_accepted (occs : list occurrence) (rest : list str) :
  forallb accepted occs = true ->
  arg_string_pattern_parts (flat_map tokens occs ++ rest)
  = (parts <~ arg_string_pattern_parts rest ;;
     Ret (flat_map parts_of occs ++ parts)).
Proof.
  induction occs as [|o occs IH]; cbn [forallb flat_map app]; intros H.
  - now destruct (arg_string_pattern_parts rest).
  - apply andb_true_iff in H as [Ho Hs]. specialize (IH Hs).
    rewrite <- !app_assoc.
    destruct o as [flag value|flag value]; cbn [accepted] in Ho;
      cbn [tokens parts_of app].
    + apply andb_true_iff in Ho as [Hf Hv].
      destruct (location_flag_parsed _ Hf) as [Hf1 Hf2].
      destruct (is_argument_parsed _ Hv) as [Hv1 Hv2].
      cbn [arg_string_pattern_parts]. rewrite Hf1, Hf2, Hv1, Hv2, IH.
      now destruct (arg_string_pattern_parts rest).
    + destruct (location_flag_joined_parsed flag value Ho) as [Hf1 Hf2].
      cbn [arg_string_pattern_parts]. rewrite Hf1, Hf2, IH.
      now destruct (arg_string_pattern_parts rest).
Qed.

Lemma consume_accepted (occs : list occurrence) :
  forall ns ex rest,
    consume ns ex (flat_map parts_of occs ++ rest)
    = consume (resolve ns occs) ex rest.
Proof.
  induction occs as [|o occs IH]; intros ns ex rest; [reflexivity|].
  cbn [flat_map]. rewrite <- app_assoc. unfold resolve. cbn [fold_left].
  destruct o as [flag value|flag value]; cbn [parts_of app value_of].
  - rewrite consume_store_next. apply IH.
  - rewrite consume_store_explicit. apply IH.
Qed.

Lemma help_flag_parsed (h : str) :
  In h help_flags ->
  str_eqb h (py "--") = false
  /\ exists os, _parse_optional h = Ret (Some (Some HelpAction, os, None)).
Proof.
  intros H.
  repeat (destruct H as [<-|H]; [split; [reflexivity|eexists; reflexivity]|]).
  destruct H.
Qed.

(** X1: the help flag ends the run wherever the scan reaches it: after any
    number of [--location] occurrences and whatever follows it (stray
    words, a flag without its value), as long as no later string is an
    ambiguous option, the help goes to standard output, nothing goes to
    standard error, the exit status is 0 and the lookup is not run. *)
Theorem help_flag_wins
  (occs : list occurrence) (h : str) (after : list str) (w : world) :
  forallb accepted occs = true ->
  In h help_flags ->
  forallb parses after = true ->
  run (flat_map tokens occs ++ h :: after) w
  = (0%Z, write_stdout format_help w).
Proof.
  intros Hoccs Hh Hafter. apply run_help.
  rewrite parse_args_eq, pattern_parts_accepted by assumption.
  destruct (help_flag_parsed _ Hh) as [Hh1 [os Hh2]].
  destruct (pattern_parts_parses _ Hafter) as (parts & Hparts & _).
  cbn [arg_string_pattern_parts]. rewrite Hh1, Hh2, Hparts. cbn [pbind].
  rewrite consume_accepted, consume_help. reflexivity.
Qed.

Lemma pattern_parts_no_argument (after : list str) :
  forallb parses after = true ->
  match after with
  | [] => true
  | v :: _ => negb (is_argument v)
  end = true ->
  exists parts,
    arg_string_pattern_parts after = Ret parts
    /\ starts_with_A parts = false.
Proof.
  intros Hp Hv. destruct after as [|v after]; [now exists []|].
  cbn [forallb] in Hp. apply andb_true_iff in Hp as [Hpv Hp].
  destruct (pattern_parts_parses _ Hp) as (parts & Hparts & _).
  cbn [arg_string_pattern_parts]. unfold parses in Hpv.
  unfold is_argument in Hv.
  destruct (str_eqb v (py "--")); [eexists; split; reflexivity|].
  cbn [orb negb andb] in Hpv, Hv.
  destruct (_parse_optional v) as [[t|]|]; try discriminate.
  rewrite Hparts. cbn [pbind]. eexists; split; reflexivity.
Qed.

(** X2: a [--location] flag (abbreviated or not) that is the last string, or
    whose next string is not an argument (another flag, the separator
    [--]), is refused with "expected one argument", as long as no string
    after the flag is an ambiguous option: the usage and that message go to
    standard error and the exit status is 2, whatever the earlier
    occurrences stored. *)
Theorem missing_value_rejected
  (occs : list occurrence) (flag : str) (after : list str) (w : world) :
  forallb accepted occs = true ->
  is_location_flag flag = true ->
  forallb parses after = true ->
  match after with
  | [] => true
  | v :: _ => negb (is_argument v)
  end = true ->
  parse_args (flat_map tokens occs ++ flag :: after)
    = inr (ExitError (py "argument --location: expected one argument"))
  /\ run (flat_map tokens occs ++ flag :: after) w
     = (2%Z,
        write_stderr
          (prog ++ py ": error: argument --location: expected one argument"
             ++ [newline])
          (write_stderr format_usage w)).
Proof.
  intros Hoccs Hflag Hafter Hv.
  assert (Hparse : parse_args (flat_map tokens occs ++ flag :: after)
                   = inr (ExitError
                            (py "argument --location: expected one argument"))).
  { rewrite parse_args_eq, pattern_parts_accepted by assumption.
    destruct (location_flag_parsed _ Hflag) as [Hf1 Hf2].
    destruct (pattern_parts_no_argument _ Hafter Hv) as (parts & Hparts & HA).
    cbn [arg_string_pattern_parts]. rewrite Hf1, Hf2, Hparts. cbn [pbind].
    rewrite consume_accepted, consume_store_missing by assumption.
    reflexivity. }
  split; [assumption|]. now rewrite (run_error _ _ w Hparse).
Qed.

(** X3: an ambiguous option fails the run before any option is acted on,
    the help flag included: [--=value], which abbreviates both [--help] and
    [--location], after strings that are neither ambiguous nor the
    separator, gives the error naming the two candidates. *)
Theorem ambiguous_option_rejected
  (before : list str) (value : str) (after : list str) (w : world) :
  forallb (fun s => negb (str_eqb s (py "--")) && parses s) before = true ->
  parse_args (before ++ (py "--=" ++ value) :: after)
    = inr (ExitError
             (py "ambiguous option: --=" ++ value
                ++ py " could match --help, --location"))
  /\ fst (run (before ++ (py "--=" ++ value) :: after) w) = 2%Z.
Proof.
  intros Hbefore.
  assert (Hparse : parse_args (before ++ (py "--=" ++ value) :: after)
                   = inr (ExitError
                            (py "ambiguous option: --=" ++ value
                               ++ py " could match --help, --location"))).
  { rewrite parse_args_eq.
    replace (arg_string_pattern_parts (before ++ (py "--=" ++ value) :: after))
      with (@Raise (list (str * kind))
              (Exiting (ExitError
                          (py "ambiguous option: --=" ++ value
                             ++ py " could match --help, --location"))));
      [reflexivity|].
    induction before as [|b before IH]; [reflexivity|].
    cbn [forallb] in Hbefore. apply andb_true_iff in Hbefore as [Hb Hrest].
    apply andb_true_iff in Hb as [Hb1 Hb2]. apply negb_true_iff in Hb1.
    unfold parses in Hb2. rewrite Hb1 in Hb2. cbn [orb] in Hb2.
    cbn [app arg_string_pattern_parts]. rewrite Hb1.
    destruct (_parse_optional b) as [t|]; [|discriminate].
    cbn [pbind]. now rewrite <- (IH Hrest). }
  split; [assumption|]. now rewrite (run_error _ _ w Hparse).
Qed.

Lemma pattern_parts_strays (argv : list str) :
  forallb (fun s => is_argument s || unknown_flag s || str_eqb s (py "--"))
    argv = true ->
  exists parts,
    arg_string_pattern_parts argv = Ret parts
    /\ map fst parts = argv
    /\ Forall (fun p => option_of (snd p) = None) parts.
Proof.
  induction argv as [|a argv IH]; cbn [forallb]; intros H.
  - exists []. repeat split. constructor.
  - apply andb_true_iff in H as [Ha Hrest].
    cbn [arg_string_pattern_parts]. unfold is_argument, unknown_flag in Ha.
    destruct (str_eqb a (py "--")).
    + eexists. split; [reflexivity|]. split.
      * cbn [map fst]. f_equal. rewrite map_map. apply map_id.
      * constructor; [reflexivity|]. apply Forall_forall. intros p Hp.
        apply in_map_iff in Hp as (s & <- & _). reflexivity.
    + destruct (IH Hrest) as (parts & -> & Hfst & Hall).
      rewrite orb_false_r in Ha. cbn [negb andb] in Ha.
      destruct (_parse_optional a) as [[[[[x|] os] e]|]|]; try discriminate;
        cbn [pbind]; eexists; (split; [reflexivity|]);
        (split; [cbn [map fst]; now rewrite Hfst|]);
        (constructor; [reflexivity|assumption]).
Qed.

Lemma consume_strays (parts : list (str * kind)) : forall ns ex,
  Forall (fun p => option_of (snd p) = None) parts ->
  consume ns ex parts = Ret (ns, ex ++ map fst parts).
Proof.
  induction parts as [|[s k] parts IH]; intros ns ex H.
  - cbn [map]. now rewrite app_nil_r.
  - inversion H as [|? ? Hk Hrest]; subst. cbn [snd] in Hk.
    rewrite consume_skip by exact Hk. rewrite IH by assumption.
    cbn [map fst]. now rewrite <- app_assoc.
Qed.

(** X4: on a command line made only of strings that select no option of the
    parser (arguments, unknown flags, the separator) nothing is dropped:
    the error names every string, in the order given, separated by single
    spaces. *)
Theorem unrecognized_listed_in_order (argv : list str) :
  argv <> [] ->
  forallb (fun s => is_argument s || unknown_flag s || str_eqb s (py "--"))
    argv = true ->
  parse_args argv
  = inr (ExitError (py "unrecognized arguments: " ++ join (py " ") argv)).
Proof.
  intros Hne H. rewrite parse_args_eq.
  destruct (pattern_parts_strays _ H) as (parts & -> & Hfst & Hall).
  rewrite consume_strays by assumption. rewrite Hfst. cbn [app].
  destruct argv; [contradiction|reflexivity].
Qed.

(** ** What selects the location option *)

Lemma split1_app (c : char) (s : str) :
  contains c s = true ->
  s = fst (split1 c s) ++ c :: snd (split1 c s).
Proof.
  unfold contains. induction s as [|x s IH]; cbn [existsb split1];
    [discriminate|].
  rewrite (N.eqb_sym c x). destruct (N.eqb x c) eqn:Hx.
  - intros _. apply N.eqb_eq in Hx. now subst.
  - cbn [orb]. intros H. specialize (IH H).
    destruct (split1 c s) as [before rest]. cbn [fst snd app] in *.
    now rewrite <- IH.
Qed.

Lemma Ret_inj {A} (a b : A) : Ret a = Ret b -> a = b.
Proof. congruence. Qed.

Lemma lookup_location (s : str) :
  lookup s _option_string_actions = Some StoreLocation -> s = py "--location".
Proof.
  unfold _option_string_actions. cbn [lookup].
  destruct (str_eqb s (py "-h")); [discriminate|].
  destruct (str_eqb s (py "--help")); [discriminate|].
  destruct (str_eqb s (py "--location")) eqn:H; [|discriminate].
  intros _. now apply str_eqb_eq.
Qed.

Lemma _get_option_tuples_location (c0 c1 : char) (rest os : str)
  (e : option str) :
  _get_option_tuples c0 c1 rest = Ret [(Some StoreLocation, os, e)] ->
  match e with
  | None => is_location_flag (c0 :: c1 :: rest) = true
  | Some value =>
      exists flag,
        is_location_flag flag = true
        /\ c0 :: c1 :: rest = flag ++ equals_sign :: value
  end.
Proof.
  unfold _get_option_tuples.
  destruct (contains c0 prefix_chars && contains c1 prefix_chars) eqn:Hdd.
  - assert (Hflag : forall p x,
               flat_map
                 (fun '(o, a) =>
                    if startswith o p then [(Some a, o, x)] else [])
                 _option_string_actions
               = [(Some StoreLocation, os, e)] ->
               is_location_flag p = true /\ x = e).
    { intros p x. unfold _option_string_actions, is_location_flag.
      cbn [flat_map app forallb].
      destruct (startswith (py "-h") p), (startswith (py "--help") p),
               (startswith (py "--location") p);
        cbn [app]; intros H; try discriminate H.
      injection H as _ <-. now split. }
    destruct (contains equals_sign (c0 :: c1 :: rest)) eqn:Heq.
    + pose proof (split1_app _ _ Heq) as Hs.
      destruct (split1 equals_sign (c0 :: c1 :: rest)) as [p x].
      cbn [fst snd] in Hs. cbv beta iota zeta. intros H.
      apply Ret_inj in H. apply Hflag in H as [Hp <-]. now exists p.
    + cbv beta iota zeta. intros H. apply Ret_inj in H.
      now apply Hflag in H as [Hp <-].
  - destruct (contains c0 prefix_chars && negb (contains c1 prefix_chars))
      eqn:Hsd; [|discriminate].
    apply andb_true_iff in Hsd as [_ Hc1]. apply negb_true_iff in Hc1.
    unfold prefix_chars, contains in Hc1. cbn [py list_ascii_of_string map existsb] in Hc1.
    change (N_of_ascii "-") with hyphen in Hc1. rewrite orb_false_r in Hc1.
    assert (H1 : str_eqb (py "--location") [c0; c1] = false).
    { apply not_true_iff_false. intros H. apply str_eqb_eq in H.
      discriminate H. }
    assert (H2 : startswith (py "--location") (c0 :: c1 :: rest) = false).
    { change (py "--location") with (hyphen :: hyphen :: py "location").
      cbn [startswith]. rewrite (N.eqb_sym hyphen c1), Hc1.
      now rewrite andb_false_r. }
    unfold _option_string_actions. cbn [flat_map app]. rewrite H1, H2.
    destruct (str_eqb (py "-h") [c0; c1]),
             (startswith (py "-h") (c0 :: c1 :: rest)),
             (str_eqb (py "--help") [c0; c1]),
             (startswith (py "--help") (c0 :: c1 :: rest));
      cbn [app]; intros H; discriminate H.
Qed.

Lemma _parse_optional_location (s os : str) (e : option str) :
  _parse_optional s = Ret (Some (Some StoreLocation, os, e)) ->
  match e with
  | None => is_location_flag s = true
  | Some value =>
      exists flag,
        is_location_flag flag = true /\ s = flag ++ equals_sign :: value
  end.
Proof.
  unfold _parse_optional.
  destruct s as [|c0 tail]; [discriminate|].
  destruct (negb (contains c0 prefix_chars)); [discriminate|].
  destruct (lookup (c0 :: tail) _option_string_actions) as [a|] eqn:Hl.
  - intros H. injection H as -> <- <-. apply lookup_location in Hl.
    now rewrite Hl.
  - destruct tail as [|c1 rest]; [discriminate|]. cbv zeta.
    assert (Htuples :
              (option_tuples <~ _get_option_tuples c0 c1 rest ;;
               match option_tuples with
               | [] =>
                   if _negative_number_matcher (c0 :: c1 :: rest)
                      && negb _has_negative_number_optionals
                   then Ret None
                   else if contains space (c0 :: c1 :: rest) then Ret None
                        else Ret (Some (None, c0 :: c1 :: rest, None))
               | [t] => Ret (Some t)
               | _ :: _ :: _ =>
                   Raise (Exiting (ExitError
                     (ambiguous_option (c0 :: c1 :: rest) option_tuples)))
               end)
              = Ret (Some (Some StoreLocation, os, e)) ->
              match e with
              | None => is_location_flag (c0 :: c1 :: rest) = true
              | Some value =>
                  exists flag,
                    is_location_flag flag = true
                    /\ c0 :: c1 :: rest = flag ++ equals_sign :: value
              end).
    { destruct (_get_option_tuples c0 c1 rest) as [ts|] eqn:Ht; cbn [pbind];
        [|discriminate].
      destruct ts as [|t [|t' ts]].
      - destruct (_negative_number_matcher (c0 :: c1 :: rest)
                  && negb _has_negative_number_optionals); [discriminate|].
        destruct (contains space (c0 :: c1 :: rest)); discriminate.
      - intros H. injection H as ->.
        now apply _get_option_tuples_location in Ht.
      - discriminate. }
    destruct (contains equals_sign (c0 :: c1 :: rest)) eqn:Heq;
      [|exact Htuples].
    pose proof (split1_app _ _ Heq) as Hs.
    destruct (split1 equals_sign (c0 :: c1 :: rest)) as [o x].
    cbn [fst snd] in Hs.
    destruct (lookup o _option_string_actions) as [a|] eqn:Hlo;
      [|exact Htuples].
    intros H. injection H as -> <- <-. apply lookup_location in Hlo.
    subst o. now exists (py "--location").
Qed.

Lemma pattern_parts_well_classified (args : list str) : forall parts,
  arg_string_pattern_parts args = Ret parts -> well_classified parts.
Proof.
  induction args as [|a args IH]; intros parts; cbn [arg_string_pattern_parts].
  - intros H; injection H as <-. exact I.
  - destruct (str_eqb a (py "--")) eqn:Ha.
    + intros H; injection H as <-. exact I.
    + destruct (_parse_optional a) as [t|] eqn:Hp; cbn [pbind];
        [|discriminate].
      destruct (arg_string_pattern_parts args) as [parts'|]; cbn [pbind];
        [|discriminate].
      intros H; injection H as <-. specialize (IH parts' eq_refl).
      destruct t as [t|]; cbn [well_classified]; split; try assumption.
      unfold is_argument. now rewrite Ha, Hp.
Qed.

(** The second loop ends without extras only on the parts of accepted
    occurrences. *)
Lemma consume_accepts (parts : list (str * kind)) : forall ns ex ns',
  well_classified parts ->
  consume ns ex parts = Ret (ns', []) ->
  exists occs,
    forallb accepted occs = true
    /\ map fst parts = flat_map tokens occs
    /\ ns' = resolve ns occs.
Proof.
  intros ns ex. revert parts ns ex.
  apply (consume_cases_ind
           (fun ns ex parts => forall ns',
                well_classified parts ->
                consume ns ex parts = Ret (ns', []) ->
                exists occs,
                  forallb accepted occs = true
                  /\ map fst parts = flat_map tokens occs
                  /\ ns' = resolve ns occs)).
  - intros ns ex ns' _ H. injection H as <- _. now exists [].
  - intros ns ex s k following Hk _ ns' _. rewrite consume_skip by exact Hk.
    intros H. apply consume_extras in H as [more H]. now destruct ex.
  - intros ns ex s os e following IH ns' [Hs Hwc].
    rewrite consume_store_explicit. intros H.
    destruct (IH _ Hwc H) as (occs & Hacc & Hfst & ->).
    apply _parse_optional_location in Hs as (flag & Hflag & ->).
    exists (Joined flag e :: occs). cbn [forallb accepted map fst flat_map tokens app].
    rewrite Hflag, Hacc, Hfst. now repeat split.
  - intros ns ex s os v following IH ns' (Hs & Hv & Hwc).
    rewrite consume_store_next. intros H.
    destruct (IH _ Hwc H) as (occs & Hacc & Hfst & ->).
    apply _parse_optional_location in Hs.
    exists (Separate s v :: occs). cbn [forallb accepted map fst flat_map tokens app].
    rewrite Hs, Hv, Hacc, Hfst. now repeat split.
  - intros ns ex s os following Hf ns' _.
    rewrite consume_store_missing by exact Hf. discriminate.
  - intros ns ex s os e following ns' _. rewrite consume_help.
    intros H. now apply help_outcome_not_ret in H.
Qed.

(** X5: argument parsing succeeds on exactly the command lines that are a
    sequence (possibly empty) of [--location] occurrences, [flag value] with
    an argument for value or [flag=value], the flag spelled out or
    abbreviated; the namespace then holds what the occurrences stored one
    after the other, starting from the default. *)
Theorem parse_succeeds_iff (argv : list str) (args : Namespace) :
  parse_args argv = inl args
  <-> exists occs,
        forallb accepted occs = true
        /\ argv = flat_map tokens occs
        /\ args = resolve defaults occs.
Proof.
  split.
  - intros H. apply parse_args_inl in H as (parts & Hparts & Hloop).
    pose proof (pattern_parts_well_classified _ _ Hparts) as Hwc.
    apply pattern_parts_ret in Hparts as [Hfst _].
    destruct (consume_accepts _ _ _ _ Hwc Hloop) as (occs & Hacc & Hm & ->).
    exists occs. repeat split; [assumption|]. now rewrite <- Hfst.
  - intros (occs & Hacc & -> & ->).
    rewrite parse_args_eq. rewrite <- (app_nil_r (flat_map tokens occs)).
    rewrite pattern_parts_accepted by assumption.
    cbn [arg_string_pattern_parts pbind]. now rewrite consume_accepted.
Qed.

(** ** Which strings are values *)

Lemma parse_single_value (flag value : str) :
  is_location_flag flag = true ->
  is_argument value = true ->
  parse_args [flag; value] = inl {| location := PyStr value |}.
Proof.
  intros Hflag Hv.
  assert (Hwf : forallb well_formed ([] ++ [Separate flag value]) = true).
  { cbn [app forallb well_formed]. now rewrite Hflag, Hv. }
  exact (parse_args_occurrences [] _ Hwf).
Qed.

Lemma run_single_value (flag value : str) (w : world) :
  is_location_flag flag = true ->
  is_argument value = true ->
  encodable value = true ->
  run [flag; value] w =
  (0%Z, write_stdout
          (py "Fetching live humidity for " ++ value ++ py "..."
             ++ [newline] ++ py "45% (Simulated)" ++ [newline]) w).
Proof.
  intros Hflag Hv Henc.
  rewrite (run_parsed _ _ w (parse_single_value _ _ Hflag Hv) Henc).
  unfold notice, result_line. cbn [location format_value].
  now rewrite <- !app_assoc.
Qed.

(** X6: a value that does not begin with a hyphen is taken as it is, the
    empty string included, whatever else it holds (spaces, [=], any Unicode
    text): [--location value] parses to exactly that text; when standard
    output can encode it the run prints the notice for it and then the
    result, and when it cannot the run ends with exit status 1 and nothing
    on standard output. *)
Theorem plain_value_accepted (value : str) (w : world) :
  hd_error value <> Some hyphen ->
  parse_args [py "--location"; value] = inl {| location := PyStr value |}
  /\ (encodable value = true ->
      run [py "--location"; value] w =
      (0%Z, write_stdout
              (py "Fetching live humidity for " ++ value ++ py "..."
                 ++ [newline] ++ py "45% (Simulated)" ++ [newline]) w))
  /\ (encodable value = false ->
      fst (run [py "--location"; value] w) = 1%Z
      /\ stdout (snd (run [py "--location"; value] w)) = stdout w).
Proof.
  intros H.
  assert (Harg : is_argument value = true).
  { destruct value as [|c s]; [reflexivity|].
    apply plain_word_is_argument. intros ->. now apply H. }
  pose proof (parse_single_value (py "--location") value eq_refl Harg)
    as Hparse.
  split; [exact Hparse|]. split.
  - now apply run_single_value.
  - intros Henc. now rewrite (run_unencodable _ _ w Hparse Henc).
Qed.

Lemma startswith_second (a b c d : char) (s p : str) :
  startswith (a :: b :: s) (c :: d :: p) = true -> b = d.
Proof.
  cbn [startswith]. intros H. apply andb_true_iff in H as [_ H].
  apply andb_true_iff in H as [H _]. now apply N.eqb_eq.
Qed.

(** A string [-x...] whose second character is neither a hyphen nor [h] and
    that holds no [=] matches no option: what it is taken for is decided by
    the negative-number pattern and by the spaces in it. *)
Lemma hyphen_word_parsed (c1 : char) (rest : str) :
  c1 <> hyphen -> c1 <> 104%N ->
  contains equals_sign (c1 :: rest) = false ->
  _parse_optional (hyphen :: c1 :: rest)
  = if _negative_number_matcher (hyphen :: c1 :: rest)
       && negb _has_negative_number_optionals
    then Ret None
    else if contains space (hyphen :: c1 :: rest) then Ret None
         else Ret (Some (None, hyphen :: c1 :: rest, None)).
Proof.
  intros Hh H104 Heq.
  assert (Hlookup : lookup (hyphen :: c1 :: rest) _option_string_actions
                    = None).
  { unfold _option_string_actions. cbn [lookup].
    replace (str_eqb (hyphen :: c1 :: rest) (py "-h")) with false.
    replace (str_eqb (hyphen :: c1 :: rest) (py "--help")) with false.
    replace (str_eqb (hyphen :: c1 :: rest) (py "--location")) with false.
    reflexivity.
    all: symmetry; apply not_true_iff_false; intros E; apply str_eqb_eq in E;
      vm_compute in E; injection E as E _;
      solve [exact (Hh E) | exact (H104 E) | exact (Hh (eq_sym E))
            | exact (H104 (eq_sym E))]. }
  assert (Hc1 : contains c1 prefix_chars = false).
  { change (contains c1 prefix_chars) with (N.eqb c1 hyphen || false).
    rewrite orb_false_r. now apply N.eqb_neq. }
  assert (Htuples : _get_option_tuples hyphen c1 rest = Ret []).
  { unfold _get_option_tuples. rewrite Hc1.
    change (contains hyphen prefix_chars) with true. cbn [andb negb].
    unfold _option_string_actions. cbn [flat_map app].
    replace (str_eqb (py "-h") [hyphen; c1]) with false.
    replace (str_eqb (py "--help") [hyphen; c1]) with false.
    replace (str_eqb (py "--location") [hyphen; c1]) with false.
    replace (startswith (py "-h") (hyphen :: c1 :: rest)) with false.
    replace (startswith (py "--help") (hyphen :: c1 :: rest)) with false.
    replace (startswith (py "--location") (hyphen :: c1 :: rest)) with false.
    reflexivity.
    1-3: symmetry; apply not_true_iff_false; intros E;
      apply startswith_firstn in E; vm_compute in E; injection E as E _;
      solve [exact (Hh E) | exact (H104 E) | exact (Hh (eq_sym E))
            | exact (H104 (eq_sym E))].
    all: symmetry; apply not_true_iff_false; intros E; apply str_eqb_eq in E;
      vm_compute in E; try discriminate E; injection E as E;
      solve [exact (Hh E) | exact (H104 E) | exact (Hh (eq_sym E))
            | exact (H104 (eq_sym E))]. }
  unfold _parse_optional.
  change (negb (contains hyphen prefix_chars)) with false. cbv iota.
  rewrite Hlookup. cbv zeta.
  change (contains equals_sign (hyphen :: c1 :: rest))
    with (N.eqb equals_sign hyphen || contains equals_sign (c1 :: rest)).
  rewrite Heq. change (N.eqb equals_sign hyphen || false) with false.
  cbv iota. rewrite Htuples. reflexivity.
Qed.

Lemma numeric_char_not (c : char) :
  numeric_char c = true ->
  c <> hyphen /\ c <> 104%N /\ N.eqb equals_sign c = false.
Proof.
  intros H. repeat split.
  - intros ->. vm_compute in H. discriminate.
  - intros ->. vm_compute in H. discriminate.
  - apply N.eqb_neq. intros <-. vm_compute in H. discriminate.
Qed.

Lemma before_dollar_cases (r : str) :
  r = before_dollar r \/ r = before_dollar r ++ [newline].
Proof.
  unfold before_dollar. destruct (rev r) as [|c q] eqn:Hr; [now left|].
  destruct (N.eqb c newline) eqn:Hc; [|now left].
  right. apply N.eqb_eq in Hc. subst c.
  rewrite <- (rev_involutive r), Hr. reflexivity.
Qed.

Lemma digits_numeric (s : str) :
  forallb is_decimal_digit s = true -> forallb numeric_char s = true.
Proof.
  intros H. apply forallb_forall. intros c Hc.
  rewrite forallb_forall in H. unfold numeric_char. now rewrite (H c Hc).
Qed.

Lemma number_body_numeric (b : str) :
  all_digits1 b || digits_point_digits b = true ->
  b <> [] /\ forallb numeric_char b = true.
Proof.
  intros H. apply orb_true_iff in H as [H|H].
  - destruct b as [|c b]; [discriminate|]. split; [discriminate|].
    now apply digits_numeric.
  - unfold digits_point_digits in H. apply andb_true_iff in H as [Hdot H].
    pose proof (split1_app _ _ Hdot) as Hb.
    destruct (split1 full_stop b) as [whole frac]. cbn [fst snd] in Hb.
    apply andb_true_iff in H as [Hw Hf]. split.
    + intros ->. discriminate Hdot.
    + rewrite Hb, forallb_app. cbn [forallb].
      rewrite (digits_numeric _ Hw).
      destruct frac as [|c frac]; [discriminate|].
      now rewrite (digits_numeric _ Hf).
Qed.

Lemma negative_number_chars (v : str) :
  _negative_number_matcher v = true ->
  exists c1 rest,
    v = hyphen :: c1 :: rest /\ forallb numeric_char (c1 :: rest) = true.
Proof.
  unfold _negative_number_matcher. destruct v as [|c r]; [discriminate|].
  intros H. apply andb_true_iff in H as [Hc H]. apply N.eqb_eq in Hc.
  subst c. apply number_body_numeric in H as [Hne Hnum].
  assert (Hr : r <> [] /\ forallb numeric_char r = true).
  { destruct (before_dollar_cases r) as [E|E]; rewrite E.
    - now split.
    - split; [now destruct (before_dollar r)|].
      rewrite forallb_app, Hnum. reflexivity. }
  destruct Hr as [Hr1 Hr2]. destruct r as [|c1 rest]; [contradiction|].
  now exists c1, rest.
Qed.

Lemma numeric_no_equals (s : str) :
  forallb numeric_char s = true -> contains equals_sign s = false.
Proof.
  unfold contains. induction s as [|c s IH]; cbn [forallb existsb];
    [reflexivity|].
  intros H. apply andb_true_iff in H as [Hc Hs].
  destruct (numeric_char_not _ Hc) as (_ & _ & ->). now apply IH.
Qed.

Lemma negative_number_is_argument (v : str) :
  _negative_number_matcher v = true -> is_argument v = true.
Proof.
  intros H.
  destruct (negative_number_chars _ H) as (c1 & rest & -> & Hnum).
  pose proof Hnum as Hall. cbn [forallb] in Hnum.
  apply andb_true_iff in Hnum as [Hc1 _].
  destruct (numeric_char_not _ Hc1) as (Hh & H104 & _).
  unfold is_argument.
  rewrite (hyphen_word_parsed c1 rest Hh H104 (numeric_no_equals _ Hall)), H.
  replace (str_eqb (hyphen :: c1 :: rest) (py "--")) with false;
    [reflexivity|].
  symmetry. apply not_true_iff_false. intros E. apply str_eqb_eq in E.
  vm_compute in E. injection E as E _. exact (Hh E).
Qed.

Lemma digit_not_surrogate (c : char) :
  is_decimal_digit c = true -> is_surrogate c = false.
Proof.
  unfold is_decimal_digit. intros H.
  apply existsb_exists in H as (z & Hz & Hc).
  assert (Htable : forallb (fun z => N.leb (z + 10) 55296 || N.ltb 57343 z)
                     decimal_digit_zeros = true) by (vm_compute; reflexivity).
  rewrite forallb_forall in Htable. specialize (Htable z Hz).
  apply andb_true_iff in Hc as [H1 H2].
  apply N.leb_le in H1. apply N.ltb_lt in H2.
  unfold is_surrogate. apply andb_false_iff.
  apply orb_true_iff in Htable as [Ht|Ht].
  - apply N.leb_le in Ht. left. apply N.leb_gt. lia.
  - apply N.ltb_lt in Ht. right. apply N.leb_gt. lia.
Qed.

Lemma numeric_not_surrogate (c : char) :
  numeric_char c = true -> is_surrogate c = false.
Proof.
  unfold numeric_char. intros H.
  apply orb_true_iff in H as [H|H]; [apply orb_true_iff in H as [H|H]|].
  - now apply digit_not_surrogate.
  - apply N.eqb_eq in H. now subst c.
  - apply N.eqb_eq in H. now subst c.
Qed.

Lemma negative_number_encodable (v : str) :
  _negative_number_matcher v = true -> encodable v = true.
Proof.
  intros H.
  destruct (negative_number_chars _ H) as (c1 & rest & -> & Hnum).
  unfold encodable. apply forallb_forall. intros c [<-|Hc].
  - reflexivity.
  - rewrite forallb_forall in Hnum.
    apply encodes_plain, numeric_not_surrogate, Hnum, Hc.
Qed.

(** X7: a text that the parser's negative-number pattern matches (a hyphen
    and digits, with an optional fraction) is a value although it begins
    with a hyphen: [--location -5] succeeds and prints the notice for it. *)
Theorem negative_number_is_value (value : str) (w : world) :
  _negative_number_matcher value = true ->
  is_argument value = true
  /\ run [py "--location"; value] w =
     (0%Z, write_stdout
             (py "Fetching live humidity for " ++ value ++ py "..."
                ++ [newline] ++ py "45% (Simulated)" ++ [newline]) w).
Proof.
  intros H. pose proof (negative_number_is_argument _ H) as Harg.
  split; [assumption|]. apply run_single_value; [reflexivity|assumption|].
  now apply negative_number_encodable.
Qed.

Lemma hyphen_word_not_argument (c : char) (rest : str) :
  contains space (hyphen :: c :: rest) = false ->
  _negative_number_matcher (hyphen :: c :: rest) = false ->
  is_argument (hyphen :: c :: rest) = false.
Proof.
  intros Hspace Hneg. unfold is_argument.
  destruct (str_eqb (hyphen :: c :: rest) (py "--")); [reflexivity|].
  cbn [negb andb]. unfold _parse_optional.
  change (negb (contains hyphen prefix_chars)) with false. cbv iota.
  destruct (lookup (hyphen :: c :: rest) _option_string_actions);
    [reflexivity|].
  cbv zeta.
  match goal with
  | |- context [match ?b with Some t => Ret (Some t) | None => _ end] =>
      destruct b; [reflexivity|]
  end.
  destruct (_get_option_tuples hyphen c rest) as [[|t [|t' ts]]|];
    cbn [pbind]; try reflexivity.
  now rewrite Hneg, Hspace.
Qed.

(** X8: a value of two characters or more that begins with a hyphen, holds
    no space and is no negative number is not taken from a string of its
    own: [--location value] is a parsing failure with exit status 2.  After
    [=] the same value is accepted (unless it is [--]): [--location=value]
    parses to it, and the run prints the notice for it when standard output
    can encode it. *)
Theorem hyphen_value_needs_equals (c : char) (rest : str) (w : world) :
  contains space (hyphen :: c :: rest) = false ->
  _negative_number_matcher (hyphen :: c :: rest) = false ->
  (exists message,
      parse_args [py "--location"; hyphen :: c :: rest]
      = inr (ExitError message))
  /\ fst (run [py "--location"; hyphen :: c :: rest] w) = 2%Z
  /\ (hyphen :: c :: rest <> py "--" ->
      parse_args [py "--location" ++ equals_sign :: hyphen :: c :: rest]
      = inl {| location := PyStr (hyphen :: c :: rest) |}
      /\ (encodable (hyphen :: c :: rest) = true ->
          run [py "--location" ++ equals_sign :: hyphen :: c :: rest] w =
          (0%Z, write_stdout
                  (py "Fetching live humidity for " ++ (hyphen :: c :: rest)
                     ++ py "..." ++ [newline] ++ py "45% (Simulated)"
                     ++ [newline]) w))).
Proof.
  intros Hspace Hneg.
  pose proof (hyphen_word_not_argument c rest Hspace Hneg) as Harg.
  set (v := hyphen :: c :: rest) in *.
  assert (Hparse : exists message,
             parse_args [py "--location"; v] = inr (ExitError message)).
  { rewrite parse_args_eq. cbn [arg_string_pattern_parts].
    change (str_eqb (py "--location") (py "--")) with false. cbv iota.
    change (_parse_optional (py "--location"))
      with (@Ret (option option_tuple)
              (Some (Some StoreLocation, py "--location", None))).
    cbn [pbind]. unfold is_argument in Harg.
    destruct (str_eqb v (py "--")).
    - cbn [pbind map]. rewrite consume_store_missing by reflexivity. eauto.
    - cbn [negb andb] in Harg.
      destruct (_parse_optional v) as [[t|]|x] eqn:Hv; try discriminate Harg;
        cbn [pbind].
      + rewrite consume_store_missing by reflexivity. eauto.
      + apply _parse_optional_raise in Hv as [message ->]. eauto. }
  clearbody v. split; [assumption|]. split.
  - destruct Hparse as [message Hparse]. now rewrite (run_error _ _ w Hparse).
  - intros Hdd.
    assert (Hwf : forallb well_formed
                    ([] ++ [Joined (py "--location") v]) = true).
    { cbn [app forallb well_formed]. rewrite andb_true_r.
      apply negb_true_iff, not_true_iff_false. intros E.
      now apply str_eqb_eq in E. }
    pose proof (parse_args_occurrences [] _ Hwf) as Hjoined.
    change (flat_map tokens ([] ++ [Joined (py "--location") v]))
      with [py "--location" ++ equals_sign :: v] in Hjoined.
    change (value_of (Joined (py "--location") v)) with v in Hjoined.
    split; [exact Hjoined|]. intros Henc.
    rewrite (run_parsed _ _ w Hjoined Henc).
    unfold notice, result_line. cbn [location format_value].
    now rewrite <- !app_assoc.
Qed.

(** ** The notice and the location *)


(** ** More edges of the parser *)


Lemma long_help_flag_joined_parsed (h value : str) :
  In h long_help_flags ->
  str_eqb (h ++ equals_sign :: value) (py "--") = false
  /\ _parse_optional (h ++ equals_sign :: value)
     = Ret (Some (Some HelpAction, py "--help", Some value)).
Proof.
  intros H.
  repeat (destruct H as [<-|H]; [split; reflexivity|]). destruct H.
Qed.

(** X11: the help flag takes no value: [--help=value], the flag spelled out
    or abbreviated, is refused for every value with "ignored explicit
    argument" instead of printing the help. *)
Theorem help_takes_no_value
  (occs : list occurrence) (h value : str) (after : list str) (w : world) :
  forallb accepted occs = true ->
  In h long_help_flags ->
  forallb parses after = true ->
  parse_args (flat_map tokens occs ++ (h ++ equals_sign :: value) :: after)
    = inr (ExitError
             (py "argument -h/--help: ignored explicit argument "
                ++ repr value))
  /\ fst (run (flat_map tokens occs ++ (h ++ equals_sign :: value) :: after)
            w) = 2%Z.
Proof.
  intros Hoccs Hh Hafter.
  assert (Hparse :
            parse_args
              (flat_map tokens occs ++ (h ++ equals_sign :: value) :: after)
            = inr (ExitError
                     (py "argument -h/--help: ignored explicit argument "
                        ++ repr value))).
  { rewrite parse_args_eq, pattern_parts_accepted by assumption.
    destruct (long_help_flag_joined_parsed h value Hh) as [H1 H2].
    destruct (pattern_parts_parses _ Hafter) as (parts & Hparts & _).
    cbn [arg_string_pattern_parts]. rewrite H1, H2, Hparts. cbn [pbind].
    rewrite consume_accepted, consume_help. unfold help_outcome.
    cbn [consume_optional]. rewrite consume_explicit_eq.
    destruct value; reflexivity. }
  split; [assumption|]. now rewrite (run_error _ _ w Hparse).
Qed.

Lemma stray_parsed (s : str) :
  is_argument s || unknown_flag s = true ->
  str_eqb s (py "--") = false
  /\ exists k,
       option_of k = None
       /\ (option_tuple <~ _parse_optional s ;;
           Ret match option_tuple with Some t => KO t | None => KA end)
          = Ret k.
Proof.
  unfold is_argument, unknown_flag. intros H.
  destruct (str_eqb s (py "--")) eqn:Hs.
  - apply str_eqb_eq in Hs. subst s. vm_compute in H. discriminate.
  - split; [reflexivity|]. cbn [negb andb] in H.
    destruct (_parse_optional s) as [[[[[x|] os] e]|]|]; try discriminate;
      cbn [pbind]; eexists; (split; [|reflexivity]); reflexivity.
Qed.

(** The two loops on a command line in pieces: the occurrences store their
    values, the strays pile up in [extras]. *)
Lemma consume_items (items : list item) :
  forallb item_ok items = true ->
  exists parts,
    arg_string_pattern_parts (flat_map item_tokens items) = Ret parts
    /\ forall ns ex,
         exists ns', consume ns ex parts = Ret (ns', ex ++ strays items).
Proof.
  induction items as [|i items IH]; cbn [forallb flat_map]; intros H.
  - exists []. split; [reflexivity|]. intros ns ex. exists ns.
    cbn [strays flat_map]. now rewrite app_nil_r.
  - apply andb_true_iff in H as [Hi Hrest].
    destruct (IH Hrest) as (parts & Hparts & Hloop).
    destruct i as [o|s]; cbn [item_ok item_tokens] in *.
    + exists (parts_of o ++ parts). split.
      * rewrite <- (app_nil_r (tokens o)).
        change (tokens o ++ []) with (flat_map tokens [o]).
        rewrite pattern_parts_accepted, Hparts
          by (cbn [forallb]; now rewrite Hi).
        cbn [pbind flat_map]. now rewrite app_nil_r.
      * intros ns ex.
        rewrite <- (app_nil_r (parts_of o)).
        change (parts_of o ++ []) with (flat_map parts_of [o]).
        rewrite consume_accepted. cbn [strays flat_map app].
        apply Hloop.
    + destruct (stray_parsed s Hi) as (Hs & k & Hk & Hp).
      exists ((s, k) :: parts). split.
      * cbn [app arg_string_pattern_parts]. rewrite Hs.
        destruct (_parse_optional s) as [t|]; cbn [pbind] in *;
          [|discriminate]. rewrite Hparts. cbn [pbind].
        injection Hp as <-. reflexivity.
      * intros ns ex. rewrite consume_skip by exact Hk.
        destruct (Hloop ns (ex ++ [s])) as [ns' ->]. exists ns'.
        cbn [strays flat_map app]. now rewrite <- app_assoc.
Qed.

(** X12: strings that select no option are never dropped and never
    rescued by valid occurrences around them: on a command line of
    [--location] occurrences and such strays, with at least one stray, the
    run fails naming exactly the strays, in order, separated by single
    spaces. *)
Theorem strays_reported_between_occurrences (items : list item) (w : world) :
  forallb item_ok items = true ->
  strays items <> [] ->
  parse_args (flat_map item_tokens items)
    = inr (ExitError
             (py "unrecognized arguments: " ++ join (py " ") (strays items)))
  /\ fst (run (flat_map item_tokens items) w) = 2%Z.
Proof.
  intros Hok Hne.
  assert (Hparse :
            parse_args (flat_map item_tokens items)
            = inr (ExitError
                     (py "unrecognized arguments: "
                        ++ join (py " ") (strays items)))).
  { rewrite parse_args_eq.
    destruct (consume_items items Hok) as (parts & -> & Hloop).
    destruct (Hloop defaults []) as [ns' ->]. cbn [app].
    destruct (strays items); [contradiction|reflexivity]. }
  split; [assumption|]. now rewrite (run_error _ _ w Hparse).
Qed.

End Properties.

(** * The theorems at work

    Runs of [get_humidity.py] on a terminal, from a process that has written
    nothing yet. *)

(** C1 at ["Tokyo"]. *)
Lemma get_humidity_returns_constant_witness :
  encodable (rt := example_runtime) Tokyo = true
  /\ fst (get_humidity (rt := example_runtime) (PyStr Tokyo) fresh)
     = Val (py "45% (Simulated)").
Proof.
  split; [reflexivity|].
  exact (proj1 (get_humidity_returns_constant (rt := example_runtime)
                  Tokyo fresh) eq_refl).
Defined.

(** C1 as the claim states it fails on a text that standard output cannot
    encode: for the surrogate U+D800 the call returns nothing, the [print]
    raises. *)
Lemma get_humidity_surrogate_returns_nothing :
  fst (get_humidity (rt := example_runtime) (PyStr lone_surrogate) fresh)
  = Raised (UnicodeEncodeError
              (py "Fetching live humidity for " ++ lone_surrogate ++ py "..."))
  /\ fst (get_humidity (rt := example_runtime) (PyStr lone_surrogate) fresh)
     <> Val (py "45% (Simulated)").
Proof. split; [reflexivity|discriminate]. Qed.

(** C2 at ["Tokyo"]: one line, the notice. *)
Lemma get_humidity_writes_notice_witness :
  encodable (rt := example_runtime) Tokyo = true
  /\ contains newline Tokyo = false
  /\ snd (get_humidity (rt := example_runtime) (PyStr Tokyo) fresh)
     = {| stdout := py "Fetching live humidity for Tokyo..." ++ [newline];
          stderr := [] |}
  /\ lines (stdout (snd (get_humidity (rt := example_runtime) (PyStr Tokyo)
                           fresh)))
     = [py "Fetching live humidity for Tokyo..."].
Proof.
  destruct (proj1 (get_humidity_writes_notice (rt := example_runtime)
                     Tokyo fresh) eq_refl) as [Hout Hlines].
  split; [reflexivity|]. split; [reflexivity|]. split.
  - exact Hout.
  - rewrite Hout. exact (Hlines eq_refl).
Defined.

(** C2 as the claim states it fails on a text with a line feed, for which
    the notice takes two lines of standard output, and on a text that
    standard output cannot encode, for which nothing is written. *)
Lemma get_humidity_line_feed_two_lines :
  lines (stdout (snd (get_humidity (rt := example_runtime) (PyStr two_lines)
                        fresh)))
  = [py "Fetching live humidity for a"; py "b..."]
  /\ ~ (exists line : str,
           lines (stdout (snd (get_humidity (rt := example_runtime)
                                 (PyStr two_lines) fresh)))
           = [line])
  /\ stdout (snd (get_humidity (rt := example_runtime)
                    (PyStr lone_surrogate) fresh)) = [].
Proof.
  split; [reflexivity|]. split; [|reflexivity].
  intros [line H]. vm_compute in H. discriminate H.
Qed.

(** C4 at ["Tokyo"] and at the empty text. *)
Lemma get_humidity_fails_only_in_print_witness :
  encodable (rt := example_runtime) [] = true
  /\ (exists humidity w',
         get_humidity (rt := example_runtime) (PyStr []) fresh
         = (Val humidity, w'))
  /\ (exists humidity w',
         get_humidity (rt := example_runtime) (PyStr Tokyo) fresh
         = (Val humidity, w')).
Proof.
  split; [reflexivity|]. split.
  - exact (proj2 (proj1 (get_humidity_fails_only_in_print
                           (rt := example_runtime) [] fresh)) eq_refl).
  - exact (proj2 (proj1 (get_humidity_fails_only_in_print
                           (rt := example_runtime) Tokyo fresh)) eq_refl).
Defined.

(** C4 as the claim states it fails on the surrogate U+D800: the call
    raises [UnicodeEncodeError], under the [strict] handler and under
    [surrogateescape] alike. *)
Lemma get_humidity_surrogate_raises :
  get_humidity (rt := example_runtime) (PyStr lone_surrogate) fresh
  = (Raised (UnicodeEncodeError
               (py "Fetching live humidity for " ++ lone_surrogate
                  ++ py "...")), fresh)
  /\ get_humidity (rt := c_locale_runtime) (PyStr lone_surrogate) fresh
     = (Raised (UnicodeEncodeError
                  (py "Fetching live humidity for " ++ lone_surrogate
                     ++ py "...")), fresh).
Proof. split; reflexivity. Qed.

(** C3 on the empty command line. *)
Lemma default_location_when_flag_absent_witness :
  forallb (fun s => negb (selects_location s)) [] = true
  /\ parse_args (rt := example_runtime) [] = inl defaults
  /\ location defaults = PyStr (py "Mountain View")
  /\ run (rt := example_runtime) [] fresh
     = (0%Z,
        {| stdout := py "Fetching live humidity for Mountain View..."
                       ++ [newline] ++ py "45% (Simulated)" ++ [newline];
           stderr := [] |}).
Proof.
  destruct (default_location_when_flag_absent (rt := example_runtime))
    as [Hrun Hdefault].
  split; [reflexivity|]. split; [reflexivity|]. split.
  - exact (proj1 (Hdefault [] defaults fresh eq_refl eq_refl)).
  - exact (Hrun fresh).
Defined.

(** C5 on [--location Tokyo]. *)
Lemma successful_run_output_witness :
  parse_args (rt := example_runtime) [py "--location"; Tokyo]
  = inl {| location := PyStr Tokyo |}
  /\ encodable (rt := example_runtime) Tokyo = true
  /\ stdout (snd (run (rt := example_runtime) [py "--location"; Tokyo] fresh))
     = py "Fetching live humidity for Tokyo..." ++ [newline]
         ++ py "45% (Simulated)" ++ [newline]
  /\ lines (stdout (snd (run (rt := example_runtime)
                           [py "--location"; Tokyo] fresh)))
     = [py "Fetching live humidity for Tokyo..."; py "45% (Simulated)"].
Proof.
  assert (H : parse_args (rt := example_runtime) [py "--location"; Tokyo]
              = inl {| location := PyStr Tokyo |}) by reflexivity.
  destruct (successful_run_output (rt := example_runtime) _ _ fresh H eq_refl)
    as [Hout Hlines].
  split; [exact H|]. split; [reflexivity|]. split.
  - exact Hout.
  - rewrite Hout. exact (Hlines eq_refl).
Defined.

(** C5 as the claim states it fails on a location with a line feed, where
    the run succeeds and standard output has three lines, and on a location
    that standard output cannot encode (the byte 0xFF of a command line),
    where parsing succeeds and standard output stays empty. *)
Lemma successful_run_not_two_lines :
  parse_args (rt := example_runtime) [py "--location"; two_lines]
  = inl {| location := PyStr two_lines |}
  /\ lines (stdout (snd (run (rt := example_runtime)
                           [py "--location"; two_lines] fresh)))
     = [py "Fetching live humidity for a"; py "b..."; py "45% (Simulated)"]
  /\ parse_args (rt := example_runtime) [py "--location"; byte_ff]
     = inl {| location := PyStr byte_ff |}
  /\ stdout (snd (run (rt := example_runtime) [py "--location"; byte_ff]
                    fresh)) = [].
Proof. repeat split. Qed.

(** C6 on the unknown flag [--city]. *)
Lemma exit_status_by_outcome_witness :
  unknown_flag (py "--city") = true
  /\ parse_args (rt := example_runtime) [py "--city"]
     = inr (ExitError (py "unrecognized arguments: --city"))
  /\ run (rt := example_runtime) [py "--city"] fresh
     = (2%Z,
        {| stdout := [];
           stderr := py "usage: get_humidity.py [-h] [--location LOCATION]"
                       ++ [newline]
                       ++ py "get_humidity.py: error: unrecognized arguments: --city"
                       ++ [newline] |}).
Proof.
  destruct (exit_status_by_outcome (rt := example_runtime))
    as (Hall & _ & Hunknown).
  pose proof (Hunknown (py "--city") eq_refl) as Hparse.
  split; [reflexivity|]. split; [exact Hparse|].
  destruct (Hall [py "--city"] fresh)
    as [(message & Hm & Hrun)|[(args & Ha & _)|(Hno & _)]].
  - rewrite Hparse in Hm. injection Hm as <-. exact Hrun.
  - rewrite Hparse in Ha. discriminate Ha.
  - destruct (Hno _ Hparse).
Defined.

(** C6 as the claim states it fails on a location that standard output
    cannot encode: [--location] with the byte 0xFF parses, and the run ends
    with exit status 1 and nothing on standard output. *)
Lemma unencodable_location_exits_one :
  parse_args (rt := example_runtime) [py "--location"; byte_ff]
  = inl {| location := PyStr byte_ff |}
  /\ fst (run (rt := example_runtime) [py "--location"; byte_ff] fresh) = 1%Z
  /\ stdout (snd (run (rt := example_runtime) [py "--location"; byte_ff]
                    fresh)) = [].
Proof. repeat split. Qed.

(** Under the C locale the same command line prints the notice. *)
Example c_locale_prints_byte :
  run (rt := c_locale_runtime) [py "--location"; byte_ff] fresh
  = (0%Z,
     {| stdout := py "Fetching live humidity for " ++ byte_ff ++ py "..."
                    ++ [newline] ++ py "45% (Simulated)" ++ [newline];
        stderr := [] |}).
Proof. reflexivity. Qed.

(** C8 on [--location Tokyo --loc=Paris --l Oslo]. *)
Lemma last_location_wins_witness :
  forallb well_formed
    ([Separate (py "--location") Tokyo; Joined (py "--loc") (py "Paris")]
       ++ [Separate (py "--l") (py "Oslo")]) = true
  /\ encodable (rt := example_runtime) (py "Oslo") = true
  /\ parse_args (rt := example_runtime)
       [py "--location"; Tokyo; py "--loc=Paris"; py "--l"; py "Oslo"]
     = inl {| location := PyStr (py "Oslo") |}
  /\ run (rt := example_runtime)
       [py "--location"; Tokyo; py "--loc=Paris"; py "--l"; py "Oslo"] fresh
     = (0%Z,
        {| stdout := py "Fetching live humidity for Oslo..." ++ [newline]
                       ++ py "45% (Simulated)" ++ [newline];
           stderr := [] |}).
Proof.
  destruct (last_location_wins (rt := example_runtime)
              [Separate (py "--location") Tokyo;
               Joined (py "--loc") (py "Paris")]
              (Separate (py "--l") (py "Oslo")) fresh eq_refl)
    as [Hparse Hrun].
  split; [reflexivity|]. split; [reflexivity|]. split.
  - exact Hparse.
  - exact (Hrun eq_refl).
Defined.

(** C8 as the claim states it fails in three ways.  The last value [--]
    after [=] is not the location of the notice, which is printed for
    [[]]; a last value in a string of its own that looks like a flag is not
    parsed at all; and a last value that standard output cannot encode is
    parsed but no notice is printed. *)
Lemma last_location_not_used :
  parse_args (rt := example_runtime)
    [py "--location"; Tokyo; py "--location=--"]
  = inl {| location := PyList [] |}
  /\ stdout (snd (run (rt := example_runtime)
                    [py "--location"; Tokyo; py "--location=--"] fresh))
     = py "Fetching live humidity for []..." ++ [newline]
         ++ py "45% (Simulated)" ++ [newline]
  /\ parse_args (rt := example_runtime)
       [py "--location"; Tokyo; py "--location"; py "-Paris"]
     = inr (ExitError (py "argument --location: expected one argument"))
  /\ parse_args (rt := example_runtime)
       [py "--location"; Tokyo; py "--location"; byte_ff]
     = inl {| location := PyStr byte_ff |}
  /\ stdout (snd (run (rt := example_runtime)
                    [py "--location"; Tokyo; py "--location"; byte_ff]
                    fresh)) = [].
Proof. repeat split. Qed.

(** The value [--] after [=] is taken away by [_get_values], which leaves an
    empty list for the location: the joined form of a well-formed occurrence
    excludes it. *)
Example location_equals_double_dash :
  parse_args (rt := example_runtime) [py "--location=--"]
  = inl {| location := PyList [] |}
  /\ stdout (snd (run (rt := example_runtime) [py "--location=--"] fresh))
     = py "Fetching live humidity for []..." ++ [newline]
         ++ py "45% (Simulated)" ++ [newline].
Proof. split; reflexivity. Qed.

(** C9 on a location given without the flag. *)
Lemma positional_never_accepted_witness :
  is_argument Tokyo = true
  /\ parse_args (rt := example_runtime) [Tokyo]
     = inr (ExitError (py "unrecognized arguments: Tokyo"))
  /\ fst (run (rt := example_runtime) [Tokyo] fresh) = 2%Z.
Proof.
  split; [reflexivity|].
  assert (Hfirst : forall before' f,
             @nil str = before' ++ [f] -> awaits_argument f = false)
    by (intros [|? ?] f E; discriminate E).
  destruct (positional_never_accepted (rt := example_runtime)
              [] Tokyo [] fresh eq_refl Hfirst)
    as [(message & Hm & Hrun)|(Hh & _)].
  - split; [reflexivity|]. cbn [app] in Hrun. now rewrite Hrun.
  - discriminate Hh.
Defined.

(** C9 as the claim states it fails when a help flag is on the command line:
    [Tokyo -h] has a positional string and yet prints the help and exits with
    status 0. *)
Lemma positional_then_help_exits_zero :
  is_argument Tokyo = true
  /\ run (rt := example_runtime) [Tokyo; py "-h"] fresh
     = (0%Z, {| stdout := format_help (Runtime := example_runtime);
                stderr := [] |}).
Proof. split; reflexivity. Qed.

(** C10 on [--loc]. *)
Lemma abbreviated_flag_accepted_witness :
  is_location_flag (py "--loc") = true
  /\ run (rt := example_runtime) [py "--loc"; Tokyo] fresh
     = run (rt := example_runtime) [py "--location"; Tokyo] fresh
  /\ run (rt := example_runtime) [py "--loc=Tokyo"] fresh
     = run (rt := example_runtime) [py "--location=Tokyo"] fresh
  /\ parse_args (rt := example_runtime) [py "--loc"; Tokyo]
     = inl {| location := PyStr Tokyo |}
  /\ run (rt := example_runtime) [py "--loc"; Tokyo] fresh
     = (0%Z,
        {| stdout := py "Fetching live humidity for Tokyo..." ++ [newline]
                       ++ py "45% (Simulated)" ++ [newline];
           stderr := [] |}).
Proof.
  destruct (abbreviated_flag_accepted (rt := example_runtime) (py "--loc")
              eq_refl) as (Hsep & Hjoined & Hvalue).
  destruct (Hvalue Tokyo fresh eq_refl) as [Hparse Hrun].
  split; [reflexivity|]. split; [|split; [|split]].
  - exact (Hsep [] [Tokyo] fresh (fun H => H)).
  - exact (Hjoined [] [] Tokyo fresh (fun H => H)).
  - exact Hparse.
  - exact (Hrun eq_refl).
Defined.

(** * The further properties at work *)

(** X1 on [--location Tokyo -h extra --location]. *)
Lemma help_flag_wins_witness :
  forallb accepted [Separate (py "--location") Tokyo] = true
  /\ In (py "-h") help_flags
  /\ forallb parses [py "extra"; py "--location"] = true
  /\ run (rt := example_runtime)
       [py "--location"; Tokyo; py "-h"; py "extra"; py "--location"] fresh
     = (0%Z, {| stdout := format_help (Runtime := example_runtime);
                stderr := [] |}).
Proof.
  split; [reflexivity|]. split; [now left|]. split; [reflexivity|].
  exact (help_flag_wins (rt := example_runtime)
           [Separate (py "--location") Tokyo] (py "-h")
           [py "extra"; py "--location"] fresh eq_refl (or_introl eq_refl)
           eq_refl).
Defined.

(** X2 on [--loc --l Tokyo]: the abbreviation [--l] is a flag, not a
    value. *)
Lemma missing_value_rejected_witness :
  is_location_flag (py "--loc") = true
  /\ is_argument (py "--l") = false
  /\ parse_args (rt := example_runtime) [py "--loc"; py "--l"; Tokyo]
     = inr (ExitError (py "argument --location: expected one argument")).
Proof.
  split; [reflexivity|]. split; [reflexivity|].
  exact (proj1 (missing_value_rejected (rt := example_runtime)
                  [] (py "--loc") [py "--l"; Tokyo] fresh
                  eq_refl eq_refl eq_refl eq_refl)).
Defined.

(** X3 on [-h --=x]. *)
Lemma ambiguous_option_rejected_witness :
  forallb (fun s => negb (str_eqb s (py "--")) && parses s) [py "-h"] = true
  /\ parse_args (rt := example_runtime) [py "-h"; py "--=x"]
     = inr (ExitError
              (py "ambiguous option: --=x could match --help, --location"))
  /\ fst (run (rt := example_runtime) [py "-h"; py "--=x"] fresh) = 2%Z.
Proof.
  split; [reflexivity|].
  exact (ambiguous_option_rejected (rt := example_runtime)
           [py "-h"] (py "x") [] fresh eq_refl).
Defined.

(** X4 on [Tokyo --city -- Oslo]. *)
Lemma unrecognized_listed_in_order_witness :
  forallb (fun s => is_argument s || unknown_flag s || str_eqb s (py "--"))
    [Tokyo; py "--city"; py "--"; py "Oslo"] = true
  /\ parse_args (rt := example_runtime)
       [Tokyo; py "--city"; py "--"; py "Oslo"]
     = inr (ExitError (py "unrecognized arguments: Tokyo --city -- Oslo")).
Proof.
  split; [reflexivity|].
  refine (unrecognized_listed_in_order (rt := example_runtime)
            [Tokyo; py "--city"; py "--"; py "Oslo"] _ eq_refl).
  discriminate.
Defined.

(** X5 on [--loc=Paris --l Tokyo]. *)
Lemma parse_succeeds_iff_witness :
  forallb accepted
    [Joined (py "--loc") (py "Paris"); Separate (py "--l") Tokyo] = true
  /\ parse_args (rt := example_runtime) [py "--loc=Paris"; py "--l"; Tokyo]
     = inl {| location := PyStr Tokyo |}.
Proof.
  split; [reflexivity|].
  apply (proj2 (parse_succeeds_iff (rt := example_runtime)
                  [py "--loc=Paris"; py "--l"; Tokyo]
                  {| location := PyStr Tokyo |})).
  exists [Joined (py "--loc") (py "Paris"); Separate (py "--l") Tokyo].
  repeat split.
Defined.

(** X6 on the empty value, and on the byte 0xFF. *)
Lemma plain_value_accepted_witness :
  hd_error (@nil char) <> Some hyphen
  /\ encodable (rt := example_runtime) [] = true
  /\ run (rt := example_runtime) [py "--location"; []] fresh
     = (0%Z,
        {| stdout := py "Fetching live humidity for ..." ++ [newline]
                       ++ py "45% (Simulated)" ++ [newline];
           stderr := [] |})
  /\ hd_error byte_ff <> Some hyphen
  /\ encodable (rt := example_runtime) byte_ff = false
  /\ fst (run (rt := example_runtime) [py "--location"; byte_ff] fresh) = 1%Z.
Proof.
  assert (H : hd_error (@nil char) <> Some hyphen) by discriminate.
  assert (H' : hd_error byte_ff <> Some hyphen) by discriminate.
  split; [exact H|]. split; [reflexivity|]. split.
  - exact (proj1 (proj2 (plain_value_accepted (rt := example_runtime)
                           [] fresh H)) eq_refl).
  - split; [exact H'|]. split; [reflexivity|].
    exact (proj1 (proj2 (proj2 (plain_value_accepted (rt := example_runtime)
                                  byte_ff fresh H')) eq_refl)).
Defined.

(** X7 on [-5]. *)
Lemma negative_number_is_value_witness :
  _negative_number_matcher minus_five = true
  /\ is_argument minus_five = true
  /\ run (rt := example_runtime) [py "--location"; minus_five] fresh
     = (0%Z,
        {| stdout := py "Fetching live humidity for -5..." ++ [newline]
                       ++ py "45% (Simulated)" ++ [newline];
           stderr := [] |}).
Proof.
  split; [reflexivity|].
  exact (negative_number_is_value (rt := example_runtime) minus_five fresh
           eq_refl).
Defined.

(** X8 on [-x]. *)
Lemma hyphen_value_needs_equals_witness :
  contains space (py "-x") = false
  /\ _negative_number_matcher (py "-x") = false
  /\ encodable (rt := example_runtime) (py "-x") = true
  /\ fst (run (rt := example_runtime) [py "--location"; py "-x"] fresh) = 2%Z
  /\ parse_args (rt := example_runtime) [py "--location=-x"]
     = inl {| location := PyStr (py "-x") |}
  /\ run (rt := example_runtime) [py "--location=-x"] fresh
     = (0%Z,
        {| stdout := py "Fetching live humidity for -x..." ++ [newline]
                       ++ py "45% (Simulated)" ++ [newline];
           stderr := [] |}).
Proof.
  destruct (hyphen_value_needs_equals (rt := example_runtime)
              120%N [] fresh eq_refl eq_refl) as (_ & Hsep & Hjoined).
  assert (Hdd : py "-x" <> py "--") by discriminate.
  destruct (Hjoined Hdd) as [Hparse Hrun].
  split; [reflexivity|]. split; [reflexivity|]. split; [reflexivity|].
  split; [exact Hsep|]. split; [exact Hparse|]. exact (Hrun eq_refl).
Defined.



(** X11 on [--he=x]. *)
Lemma help_takes_no_value_witness :
  In (py "--he") long_help_flags
  /\ parse_args (rt := example_runtime) [py "--he=x"]
     = inr (ExitError
              (py "argument -h/--help: ignored explicit argument 'x'")).
Proof.
  split; [right; now left|].
  exact (proj1 (help_takes_no_value (rt := example_runtime)
                  [] (py "--he") (py "x") [] fresh eq_refl
                  (or_intror (or_introl eq_refl)) eq_refl)).
Defined.

(** X12 on [--location Tokyo extra --l=Oslo --city]. *)
Lemma strays_reported_between_occurrences_witness :
  forallb item_ok
    [Given (Separate (py "--location") Tokyo); Stray (py "extra");
     Given (Joined (py "--l") (py "Oslo")); Stray (py "--city")] = true
  /\ parse_args (rt := example_runtime)
       [py "--location"; Tokyo; py "extra"; py "--l=Oslo"; py "--city"]
     = inr (ExitError (py "unrecognized arguments: extra --city")).
Proof.
  split; [reflexivity|].
  refine (proj1 (strays_reported_between_occurrences (rt := example_runtime)
                   [Given (Separate (py "--location") Tokyo);
                    Stray (py "extra");
                    Given (Joined (py "--l") (py "Oslo"));
                    Stray (py "--city")] fresh eq_refl _)).
  discriminate.
Defined.
